(** * curio/sync.py: task synchronisation primitives

    A shallow embedding of [curio/sync.py] (events, locks, semaphores,
    condition variables, the context-manager adapter and [abide]) and the
    properties of its specification.

    Coroutines are embedded as resumptions: running a coroutine on the
    current world either returns, raises, or suspends with a continuation
    that the scheduler later calls with the value (or exception) it
    delivers and with the world as it is at that later time.  The objects
    are shared and mutable, so a continuation never keeps the world it was
    suspended in. *)

From Stdlib Require Import List ZArith Bool String Lia.
Import ListNotations.

Set Implicit Arguments.

(** ** Python values the module manipulates *)

Definition task := nat.

Inductive exn : Type :=
| AssertionError (msg : string)
| RuntimeError (msg : string)
| ValueError (msg : string)
| TypeError (msg : string)
| CancelledError
| TaskTimeout
| OtherError (name : string).

(** What the scheduler sends into a task when it runs it again:
    [_reschedule_task(task, value=None, exc=None)]. *)
Inductive wake : Type :=
| Resume
| Throw (e : exn).

(** [kernel.kqueue] is [collections.deque]; its truth value is
    "non-empty". *)
Definition kqueue := list task.

Definition nonempty (q : kqueue) : bool :=
  match q with [] => false | _ :: _ => true end.

(** A reference to a sub-object of the heap: [self], [self._lock],
    [self._waiting]. *)
Record ref (H A : Type) : Type := Ref {
  load : H -> A;
  store : A -> H -> H
}.

Definition here {A : Type} : ref A A :=
  {| load := fun a => a; store := fun a _ => a |}.

(** The world: the heap of the primitive under study and the scheduler's
    ready queue (tasks rescheduled with a pending value or exception). *)
Record world (H : Type) : Type := World {
  heap : H;
  ready : list (task * wake)
}.

(** ** Coroutines as resumptions *)

Inductive outcome (H R : Type) : Type :=
| Returned (w : world H) (r : R)
| Raised (w : world H) (e : exn)
| Suspended (w : world H) (k : wake -> world H -> outcome H R).

Arguments Returned {H R} w r.
Arguments Raised {H R} w e.
Arguments Suspended {H R} w k.

Definition coro (H R : Type) : Type := world H -> outcome H R.

Definition ret {H R} (r : R) : coro H R := fun w => Returned w r.

Definition raise {H R} (e : exn) : coro H R := fun w => Raised w e.

Fixpoint bind_outcome {H A B} (o : outcome H A) (f : A -> coro H B)
  : outcome H B :=
  match o with
  | Returned w a => f a w
  | Raised w e => Raised w e
  | Suspended w k => Suspended w (fun v w' => bind_outcome (k v w') f)
  end.

Definition bind {H A B} (c : coro H A) (f : A -> coro H B) : coro H B :=
  fun w => bind_outcome (c w) f.

Declare Scope coro_scope.
Delimit Scope coro_scope with coro.
Notation "x <- c ;; k" := (bind c (fun x => k))
  (at level 61, c at next level, right associativity) : coro_scope.
Notation "c ;; k" := (bind c (fun _ => k))
  (at level 61, right associativity) : coro_scope.
Open Scope coro_scope.

(** [try: body finally: fin].  The clean-up runs on both exits; when it
    raises, its exception replaces the pending one. *)
Fixpoint finally_outcome {H A} (o : outcome H A) (fin : coro H unit)
  : outcome H A :=
  match o with
  | Returned w a => bind_outcome (fin w) (fun _ => ret a)
  | Raised w e => bind_outcome (fin w) (fun _ => raise e)
  | Suspended w k => Suspended w (fun v w' => finally_outcome (k v w') fin)
  end.

Definition try_finally {H A} (body : coro H A) (fin : coro H unit)
  : coro H A :=
  fun w => finally_outcome (body w) fin.

(** [try: body except ...: handler].  [handler e] is [None] when no
    clause matches [e]. *)
Fixpoint except_outcome {H A} (o : outcome H A)
    (handler : exn -> option (coro H A)) : outcome H A :=
  match o with
  | Returned w a => Returned w a
  | Raised w e =>
      match handler e with
      | Some h => h w
      | None => Raised w e
      end
  | Suspended w k => Suspended w (fun v w' => except_outcome (k v w') handler)
  end.

Definition try_except {H A} (body : coro H A)
    (handler : exn -> option (coro H A)) : coro H A :=
  fun w => except_outcome (body w) handler.

(** Attribute read and write through a reference. *)
Definition read {H A} (r : ref H A) : coro H A :=
  fun w => Returned w (load r (heap w)).

Definition write {H A} (r : ref H A) (a : A) : coro H unit :=
  fun w => Returned {| heap := store r a (heap w); ready := ready w |} tt.

(** ** The kernel traps *)

(** A suspended task that is run again continues normally or with the
    exception the scheduler throws into it. *)
Definition resume_with {H} (v : wake) (w : world H) : outcome H unit :=
  match v with
  | Resume => Returned w tt
  | Throw e => Raised w e
  end.

(** Modelled from the spec: [traps._wait_on_queue] ([curio/traps.py] is
    not part of the sources).  "Suspends the current task onto [queue];
    returns normally on resumption; propagates cancellation/timeout if
    delivered while suspended". *)
Definition _wait_on_queue {H} (queue : ref H kqueue) (state : string)
    (current : task) : coro H unit :=
  fun w =>
    Suspended
      {| heap := store queue (load queue (heap w) ++ [current]) (heap w);
         ready := ready w |}
      (fun v w' => resume_with v w').

(** Modelled from the spec: [traps._reschedule_tasks].  "Resumes up to
    [n] tasks from the front of [queue], in FIFO order; safe to call with
    [n] greater than the queue length (resumes all)".  It is not a
    suspension point of the caller. *)
Definition _reschedule_tasks {H} (queue : ref H kqueue) (n : nat)
  : coro H unit :=
  fun w =>
    let q := load queue (heap w) in
    Returned
      {| heap := store queue (skipn n q) (heap w);
         ready := ready w ++ map (fun t => (t, Resume)) (firstn n q) |}
      tt.

(** ** class Event *)

Module Event.

Record t : Type := Make {
  _set : bool;
  _waiting : kqueue
}.

(** [__init__] *)
Definition init : t := {| _set := false; _waiting := [] |}.

Section Methods.
Context {H : Type} (self : ref H t).

Definition set_ref : ref H bool :=
  {| load := fun h => _set (load self h);
     store := fun b h =>
       store self {| _set := b; _waiting := _waiting (load self h) |} h |}.

Definition waiting_ref : ref H kqueue :=
  {| load := fun h => _waiting (load self h);
     store := fun q h =>
       store self {| _set := _set (load self h); _waiting := q |} h |}.

Definition is_set (h : H) : bool := _set (load self h).

Definition clear : coro H unit := write set_ref false.

Definition wait (current : task) : coro H unit :=
  flag <- read set_ref;;
  if flag
  then ret tt
  else _wait_on_queue waiting_ref "EVENT_WAIT" current.

Definition set (current : task) : coro H unit :=
  write set_ref true;;
  q <- read waiting_ref;;
  _reschedule_tasks waiting_ref (List.length q).

End Methods.

End Event.

(** ** class Lock *)

Module Lock.

Record t : Type := Make {
  _acquired : bool;
  _waiting : kqueue
}.

(** [__init__] *)
Definition init : t := {| _acquired := false; _waiting := [] |}.

Section Methods.
Context {H : Type} (self : ref H t).

Definition acquired_ref : ref H bool :=
  {| load := fun h => _acquired (load self h);
     store := fun b h =>
       store self {| _acquired := b;
                     _waiting := _waiting (load self h) |} h |}.

Definition waiting_ref : ref H kqueue :=
  {| load := fun h => _waiting (load self h);
     store := fun q h =>
       store self {| _acquired := _acquired (load self h);
                     _waiting := q |} h |}.

Definition acquire (current : task) : coro H bool :=
  held <- read acquired_ref;;
  (if held
   then _wait_on_queue waiting_ref "LOCK_ACQUIRE" current
   else ret tt);;
  write acquired_ref true;;
  ret true.

Definition release (current : task) : coro H unit :=
  held <- read acquired_ref;;
  (if held then ret tt else raise (AssertionError "Lock not acquired"));;
  q <- read waiting_ref;;
  if nonempty q
  then _reschedule_tasks waiting_ref 1
  else write acquired_ref false.

Definition locked (h : H) : bool := _acquired (load self h).

End Methods.

End Lock.

(** ** class Semaphore *)

Module Semaphore.

Record t : Type := Make {
  _value : Z;
  _waiting : kqueue
}.

(** [__init__(self, value=1)] *)
Definition init (value : Z) : t := {| _value := value; _waiting := [] |}.

Section Methods.
Context {H : Type} (self : ref H t).

Definition value_ref : ref H Z :=
  {| load := fun h => _value (load self h);
     store := fun v h =>
       store self {| _value := v; _waiting := _waiting (load self h) |} h |}.

Definition waiting_ref : ref H kqueue :=
  {| load := fun h => _waiting (load self h);
     store := fun q h =>
       store self {| _value := _value (load self h); _waiting := q |} h |}.

Definition acquire (current : task) : coro H bool :=
  v <- read value_ref;;
  (if (v <=? 0)%Z
   then _wait_on_queue waiting_ref "SEMA_ACQUIRE" current
   else write value_ref (v - 1)%Z);;
  ret true.

Definition release (current : task) : coro H unit :=
  q <- read waiting_ref;;
  if nonempty q
  then _reschedule_tasks waiting_ref 1
  else (v <- read value_ref;; write value_ref (v + 1)%Z).

Definition locked (h : H) : bool := (_value (load self h) =? 0)%Z.

End Methods.

End Semaphore.

(** ** class BoundedSemaphore(Semaphore) *)

Module BoundedSemaphore.

Record t : Type := Make {
  super : Semaphore.t;
  _bound_value : Z
}.

(** [__init__(self, value=1)] *)
Definition init (value : Z) : t :=
  {| super := Semaphore.init value; _bound_value := value |}.

Section Methods.
Context {H : Type} (self : ref H t).

(** The [Semaphore] part of the object, on which the inherited methods
    work. *)
Definition super_ref : ref H Semaphore.t :=
  {| load := fun h => super (load self h);
     store := fun s h =>
       store self {| super := s;
                     _bound_value := _bound_value (load self h) |} h |}.

Definition bound_value (h : H) : Z := _bound_value (load self h).

Definition acquire (current : task) : coro H bool :=
  Semaphore.acquire super_ref current.

Definition release (current : task) : coro H unit :=
  v <- read (Semaphore.value_ref super_ref);;
  b <- (fun w => Returned w (bound_value (heap w)));;
  (if (v >=? b)%Z
   then raise (ValueError "BoundedSemaphore released too many times")
   else ret tt);;
  Semaphore.release super_ref current.

Definition locked (h : H) : bool := Semaphore.locked super_ref h.

End Methods.

End BoundedSemaphore.

(** ** class Condition *)

(** A synchronous Python callable ([predicate()]): it cannot suspend; it
    may change the heap, and returns or raises. *)
Definition function (H V : Type) : Type := H -> H * (exn + V).

Definition call {H V} (f : function H V) : coro H V :=
  fun w =>
    match f (heap w) with
    | (h', inr v) => Returned {| heap := h'; ready := ready w |} v
    | (h', inl e) => Raised {| heap := h'; ready := ready w |} e
    end.

Module Condition.

Record t : Type := Make {
  _lock : Lock.t;
  _waiting : kqueue
}.

(** [__init__(self, lock=None)] *)
Definition init (lock : option Lock.t) : t :=
  match lock with
  | None => {| _lock := Lock.init; _waiting := [] |}
  | Some l => {| _lock := l; _waiting := [] |}
  end.

Section Methods.
Context {H : Type} (self : ref H t).

Definition lock_ref : ref H Lock.t :=
  {| load := fun h => _lock (load self h);
     store := fun l h =>
       store self {| _lock := l; _waiting := _waiting (load self h) |} h |}.

Definition waiting_ref : ref H kqueue :=
  {| load := fun h => _waiting (load self h);
     store := fun q h =>
       store self {| _lock := _lock (load self h); _waiting := q |} h |}.

Definition locked (h : H) : bool := Lock.locked lock_ref h.

Definition acquire (current : task) : coro H unit :=
  Lock.acquire lock_ref current;; ret tt.

Definition release (current : task) : coro H unit :=
  Lock.release lock_ref current.

Definition wait (current : task) : coro H unit :=
  held <- (fun w => Returned w (locked (heap w)));;
  (if negb held
   then raise (RuntimeError "Can't wait on unacquired lock")
   else ret tt);;
  release current;;
  try_finally (_wait_on_queue waiting_ref "COND_WAIT" current)
              (acquire current).

(** [wait_for] loops for ever when the predicate stays false; [fuel]
    bounds the number of evaluations of the predicate, and [None] is the
    answer of a loop that was cut. *)
Fixpoint wait_for {V : Type} (truth : V -> bool) (fuel : nat)
    (predicate : function H V) (current : task) : coro H (option V) :=
  match fuel with
  | O => ret None
  | S fuel' =>
      result <- call predicate;;
      if truth result
      then ret (Some result)
      else wait current;; wait_for truth fuel' predicate current
  end.

Definition notify (n : nat) (current : task) : coro H unit :=
  held <- (fun w => Returned w (locked (heap w)));;
  (if negb held
   then raise (RuntimeError "Can't notify on unacquired lock")
   else ret tt);;
  _reschedule_tasks waiting_ref n.

Definition notify_all (current : task) : coro H unit :=
  q <- read waiting_ref;;
  notify (List.length q) current.

End Methods.

End Condition.

(** ** The scheduler *)

(** Modelled from the spec: the scheduler of [curio/kernel.py], which is
    not part of the sources.  "A task runs until it explicitly suspends
    and is never preempted"; "any suspended task may have a cancellation
    or timeout delivered by the external scheduler at any suspension
    point", with "removal from [queue] on such propagation".  A task that
    is not suspended may call any operation; a call runs up to its first
    suspension.  A rescheduled task is on the ready queue with the value
    or exception it will receive, and continues when the scheduler picks
    it, in the world as it is by then. *)
Section Scheduler.
Variables (H Op : Type).
Variable run_op : Op -> task -> coro H unit.
Variable cancel_wait : task -> H -> H.

Definition continuation : Type := wake -> world H -> outcome H unit.

(** How a call ended, and the heap at that moment. *)
Record exit : Type := Exit {
  exit_task : task;
  exit_op : Op;
  exit_exn : option exn;
  exit_heap : H
}.

Record system : Type := System {
  now : world H;
  parked : list (task * (Op * continuation));
  log : list exit
}.

Inductive event : Type :=
| Call (t : task) (op : Op)
| Run (t : task)
| Deliver (t : task) (e : exn).

Definition boot (h : H) : system :=
  {| now := {| heap := h; ready := [] |}; parked := []; log := [] |}.

Fixpoint find_parked (t : task) (l : list (task * (Op * continuation)))
  : option (Op * continuation) :=
  match l with
  | [] => None
  | (t', c) :: l' => if Nat.eqb t t' then Some c else find_parked t l'
  end.

Fixpoint drop_parked (t : task) (l : list (task * (Op * continuation)))
  : list (task * (Op * continuation)) :=
  match l with
  | [] => []
  | (t', c) :: l' =>
      if Nat.eqb t t' then l' else (t', c) :: drop_parked t l'
  end.

Fixpoint take_ready (t : task) (r : list (task * wake))
  : option (wake * list (task * wake)) :=
  match r with
  | [] => None
  | (t', v) :: r' =>
      if Nat.eqb t t' then Some (v, r')
      else match take_ready t r' with
           | Some (v', r'') => Some (v', (t', v) :: r'')
           | None => None
           end
  end.

Definition is_ready (t : task) (r : list (task * wake)) : bool :=
  existsb (fun p => Nat.eqb t (fst p)) r.

Definition settle (t : task) (op : Op) (o : outcome H unit)
    (p : list (task * (Op * continuation))) (l : list exit) : system :=
  match o with
  | Returned w _ =>
      {| now := w; parked := p;
         log := l ++ [Exit t op None (heap w)] |}
  | Raised w e =>
      {| now := w; parked := p;
         log := l ++ [Exit t op (Some e) (heap w)] |}
  | Suspended w k =>
      {| now := w; parked := (t, (op, k)) :: p; log := l |}
  end.

(** Modelled from the spec: one move of the scheduler or of a task (see
    the head of this section). *)
Definition step (ev : event) (s : system) : option system :=
  match ev with
  | Call t op =>
      match find_parked t (parked s) with
      | Some _ => None
      | None => Some (settle t op (run_op op t (now s)) (parked s) (log s))
      end
  | Run t =>
      match take_ready t (ready (now s)), find_parked t (parked s) with
      | Some (v, r'), Some (op, k) =>
          Some (settle t op (k v {| heap := heap (now s); ready := r' |})
                       (drop_parked t (parked s)) (log s))
      | _, _ => None
      end
  | Deliver t e =>
      match find_parked t (parked s) with
      | Some _ =>
          if is_ready t (ready (now s)) then None
          else Some {| now := {| heap := cancel_wait t (heap (now s));
                                 ready := ready (now s) ++ [(t, Throw e)] |};
                       parked := parked s;
                       log := log s |}
      | None => None
      end
  end.

Fixpoint exec (trace : list event) (s : system) : option system :=
  match trace with
  | [] => Some s
  | ev :: trace' =>
      match step ev s with
      | Some s' => exec trace' s'
      | None => None
      end
  end.

(** An outcome keeps [I] when every world it leaves behind satisfies [I],
    whatever world (satisfying [I]) it is resumed in. *)
Fixpoint respects {R : Type} (I : H -> Prop) (o : outcome H R) : Prop :=
  match o with
  | Returned w _ => I (heap w)
  | Raised w _ => I (heap w)
  | Suspended w k =>
      I (heap w) /\ forall v w', I (heap w') -> respects I (k v w')
  end.

Definition system_inv (I : H -> Prop) (s : system) : Prop :=
  I (heap (now s)) /\
  forall t op k, In (t, (op, k)) (parked s) ->
    forall v w, I (heap w) -> respects I (k v w).

End Scheduler.

Arguments Call {Op} t op.
Arguments Run {Op} t.
Arguments Deliver {Op} t e.

(** Modelled from the spec: "guarantees removal from [queue]" when a
    cancellation or timeout is delivered: the task leaves the queue it
    waits in. *)
Definition unqueue (t : task) (q : kqueue) : kqueue :=
  filter (fun t' => negb (Nat.eqb t t')) q.

(** *** Tasks sharing one Lock *)

Inductive lock_op : Type := LockAcquire | LockRelease.

Definition lock_run (op : lock_op) (t : task) : coro Lock.t unit :=
  match op with
  | LockAcquire => Lock.acquire here t;; ret tt
  | LockRelease => Lock.release here t
  end.

Definition lock_cancel (t : task) (l : Lock.t) : Lock.t :=
  {| Lock._acquired := Lock._acquired l;
     Lock._waiting := unqueue t (Lock._waiting l) |}.

Definition lock_inv (l : Lock.t) : Prop :=
  Lock._acquired l = false -> Lock._waiting l = [].

(** *** Tasks sharing one BoundedSemaphore *)

Inductive sem_op : Type := SemAcquire | SemRelease.

Definition bsem_run (op : sem_op) (t : task)
  : coro BoundedSemaphore.t unit :=
  match op with
  | SemAcquire => BoundedSemaphore.acquire here t;; ret tt
  | SemRelease => BoundedSemaphore.release here t
  end.

Definition bsem_cancel (t : task) (b : BoundedSemaphore.t)
  : BoundedSemaphore.t :=
  {| BoundedSemaphore.super :=
       {| Semaphore._value := Semaphore._value (BoundedSemaphore.super b);
          Semaphore._waiting :=
            unqueue t (Semaphore._waiting (BoundedSemaphore.super b)) |};
     BoundedSemaphore._bound_value := BoundedSemaphore._bound_value b |}.

Definition permits (b : BoundedSemaphore.t) : Z :=
  Semaphore._value (BoundedSemaphore.super b).

Definition waiters (b : BoundedSemaphore.t) : kqueue :=
  Semaphore._waiting (BoundedSemaphore.super b).

(** The bound is the initial value; the permits never exceed it; and
    while a permit is available nobody waits. *)
Definition bsem_inv (value : Z) (b : BoundedSemaphore.t) : Prop :=
  BoundedSemaphore._bound_value b = value
  /\ (permits b <= value)%Z
  /\ ((0 < permits b)%Z -> waiters b = []).

(** *** Tasks sharing one Condition *)

Inductive cond_op : Type :=
| CondAcquire
| CondRelease
| CondWait
| CondNotify (n : nat)
| CondNotifyAll.

Definition cond_run (op : cond_op) (t : task) : coro Condition.t unit :=
  match op with
  | CondAcquire => Condition.acquire here t
  | CondRelease => Condition.release here t
  | CondWait => Condition.wait here t
  | CondNotify n => Condition.notify here n t
  | CondNotifyAll => Condition.notify_all here t
  end.

Definition cond_cancel (t : task) (c : Condition.t) : Condition.t :=
  {| Condition._lock := lock_cancel t (Condition._lock c);
     Condition._waiting := unqueue t (Condition._waiting c) |}.

(** ** class _contextadapt *)

Module _contextadapt.

Section Adapter.
Variable Val : Type.
Variable none : Val.
(** The underlying manager: what [manager.__enter__()] and
    [manager.__exit__] do when the worker thread calls them: return a
    value or raise an [Exception]. *)
Variable manager_enter : exn + Val.
Variable manager_exit : list Val -> exn + Val.

Inductive manager_call : Type :=
| EnterCall
| ExitCall (args : list Val).

(** Where the worker thread is in [_handler]. *)
Inductive handler_pc : Type :=
| Unspawned
| WaitStart
| CallEnter
| WaitFinish
| CallExit
| Finished.

(** Modelled from the spec: [workers._FutureLess] ([curio/workers.py] is
    not part of the sources), "a write-once container that holds either a
    success value or a failure". *)
Record future : Type := Future {
  cell : option (exn + Val);
  done_callbacks : nat
}.

Definition unresolved : future := {| cell := None; done_callbacks := 0 |}.

Definition set_result (v : Val) (f : future) : future :=
  {| cell := Some (inr v); done_callbacks := done_callbacks f |}.

Definition set_exception (e : exn) (f : future) : future :=
  {| cell := Some (inl e); done_callbacks := done_callbacks f |}.

Definition resolved (f : future) : bool :=
  match cell f with Some _ => true | None => false end.

(** The adapter object, the worker thread that runs [_handler], and the
    calls the thread has made on the manager. *)
Record t : Type := Make {
  start_evt : bool;
  finish_evt : bool;
  finish_args : list Val;
  enter_future : future;
  exit_future : future;
  handler_at : handler_pc;
  manager_calls : list manager_call
}.

(** [__init__] *)
Definition init : t :=
  {| start_evt := false; finish_evt := false; finish_args := [];
     enter_future := unresolved; exit_future := unresolved;
     handler_at := Unspawned; manager_calls := [] |}.

Definition start_evt_ref : ref t bool :=
  {| load := start_evt;
     store := fun b a =>
       Make b (finish_evt a) (finish_args a) (enter_future a)
            (exit_future a) (handler_at a) (manager_calls a) |}.

Definition finish_evt_ref : ref t bool :=
  {| load := finish_evt;
     store := fun b a =>
       Make (start_evt a) b (finish_args a) (enter_future a)
            (exit_future a) (handler_at a) (manager_calls a) |}.

Definition finish_args_ref : ref t (list Val) :=
  {| load := finish_args;
     store := fun l a =>
       Make (start_evt a) (finish_evt a) l (enter_future a)
            (exit_future a) (handler_at a) (manager_calls a) |}.

Definition enter_future_ref : ref t future :=
  {| load := enter_future;
     store := fun f a =>
       Make (start_evt a) (finish_evt a) (finish_args a) f
            (exit_future a) (handler_at a) (manager_calls a) |}.

Definition exit_future_ref : ref t future :=
  {| load := exit_future;
     store := fun f a =>
       Make (start_evt a) (finish_evt a) (finish_args a) (enter_future a)
            f (handler_at a) (manager_calls a) |}.

(** One step of the worker thread in [_handler]; [None] when it is
    blocked in [Event.wait()], not started, or has returned. *)
Definition _handler (a : t) : option t :=
  match handler_at a with
  | Unspawned => None
  | WaitStart =>
      if start_evt a
      then Some (Make (start_evt a) (finish_evt a) (finish_args a)
                      (enter_future a) (exit_future a)
                      CallEnter (manager_calls a))
      else None
  | CallEnter =>
      match manager_enter with
      | inr v =>
          Some (Make (start_evt a) (finish_evt a) (finish_args a)
                     (set_result v (enter_future a)) (exit_future a)
                     WaitFinish (manager_calls a ++ [EnterCall]))
      | inl e =>
          Some (Make (start_evt a) (finish_evt a) (finish_args a)
                     (set_exception e (enter_future a)) (exit_future a)
                     Finished (manager_calls a ++ [EnterCall]))
      end
  | WaitFinish =>
      if finish_evt a
      then Some (Make (start_evt a) (finish_evt a) (finish_args a)
                      (enter_future a) (exit_future a)
                      CallExit (manager_calls a))
      else None
  | CallExit =>
      Some (Make (start_evt a) (finish_evt a) (finish_args a)
                 (enter_future a)
                 (match manager_exit (finish_args a) with
                  | inr v => set_result v (exit_future a)
                  | inl e => set_exception e (exit_future a)
                  end)
                 Finished
                 (manager_calls a ++ [ExitCall (finish_args a)]))
  | Finished => None
  end.

(** The thread left to run on its own for at most [n] steps. *)
Fixpoint run_handler (n : nat) (a : t) : t :=
  match n with
  | O => a
  | S n' =>
      match _handler a with
      | Some a' => run_handler n' a'
      | None => a
      end
  end.

(** Modelled from the spec: [spawn(workers.run_in_thread(self._handler))],
    "executing [callable] on a pool thread": the thread exists from here
    on and starts at the top of [_handler]. *)
Definition spawn_handler : coro t unit :=
  fun w =>
    Returned
      {| heap := Make (start_evt (heap w)) (finish_evt (heap w))
                      (finish_args (heap w)) (enter_future (heap w))
                      (exit_future (heap w)) WaitStart
                      (manager_calls (heap w));
         ready := ready w |} tt.

(** Modelled from the spec: [traps._future_wait(future, event)],
    "suspends the current task until [future] resolves, using
    [thread_level_signal] as the cross-thread wake mechanism; propagates
    cancellation/timeout".  The signal is set on the way to the
    suspension; the scheduler resumes the task when the future is
    resolved. *)
Definition _future_wait (fut : ref t future) (event : ref t bool)
    (current : task) : coro t unit :=
  fun w =>
    Suspended {| heap := store event true (heap w); ready := ready w |}
              (fun v w' => resume_with v w').

(** [future.result()] *)
Definition result (fut : ref t future) : coro t Val :=
  f <- read fut;;
  match cell f with
  | Some (inr v) => ret v
  | Some (inl e) => raise e
  | None => raise (OtherError "InvalidStateError")
  end.

(** [future.add_done_callback(lambda f: None)] *)
Definition add_done_callback (fut : ref t future) : coro t unit :=
  f <- read fut;;
  write fut {| cell := cell f; done_callbacks := S (done_callbacks f) |}.

Definition __aenter__ (current : task) : coro t Val :=
  spawn_handler;;
  try_except
    (_future_wait enter_future_ref start_evt_ref current;;
     result enter_future_ref)
    (fun e =>
       match e with
       | CancelledError | TaskTimeout =>
           Some (add_done_callback exit_future_ref;;
                 write finish_args_ref [none; none; none];;
                 write finish_evt_ref true;;
                 raise e)
       | _ => None
       end).

Definition __aexit__ (args : list Val) (current : task) : coro t Val :=
  write finish_args_ref args;;
  _future_wait exit_future_ref finish_evt_ref current;;
  result exit_future_ref.

(** *** One use of the adapter: [async with _contextadapt(manager)] *)

(** Where the task is in the [async with] statement. *)
Inductive task_pc : Type :=
| Before
| Entering (k : wake -> world t -> outcome t Val)
| Inside (v : Val)
| EnterRaised (e : exn)
| Exiting (k : wake -> world t -> outcome t Val)
| After (r : exn + Val).

Record use : Type := Use {
  adapter : world t;
  task_at : task_pc
}.

Definition fresh : use :=
  {| adapter := {| heap := init; ready := [] |}; task_at := Before |}.

Definition entered (o : outcome t Val) : use :=
  match o with
  | Returned w v => {| adapter := w; task_at := Inside v |}
  | Raised w e => {| adapter := w; task_at := EnterRaised e |}
  | Suspended w k => {| adapter := w; task_at := Entering k |}
  end.

Definition exited (o : outcome t Val) : use :=
  match o with
  | Returned w v => {| adapter := w; task_at := After (inr v) |}
  | Raised w e => {| adapter := w; task_at := After (inl e) |}
  | Suspended w k => {| adapter := w; task_at := Exiting k |}
  end.

(** The exceptions the scheduler throws into a suspended task. *)
Definition interrupting (e : exn) : bool :=
  match e with
  | CancelledError | TaskTimeout => true
  | _ => false
  end.

Inductive use_event : Type :=
| DoEnter
| Thread
| Wake
| Interrupt (e : exn)
| DoExit (args : list Val).

(** Modelled from the spec: the moves of one use, with the scheduler and
    the thread pool as the spec describes them.  The task calls
    [__aenter__], and [__aexit__] when [__aenter__] returned; the thread
    advances; the scheduler resumes the task when the future it waits
    for is resolved, or interrupts it while it is suspended. *)
Definition use_step (current : task) (ev : use_event) (u : use)
  : option use :=
  match ev, task_at u with
  | DoEnter, Before => Some (entered (__aenter__ current (adapter u)))
  | Thread, pc =>
      match _handler (heap (adapter u)) with
      | Some a => Some {| adapter := {| heap := a;
                                        ready := ready (adapter u) |};
                          task_at := pc |}
      | None => None
      end
  | Wake, Entering k =>
      if resolved (enter_future (heap (adapter u)))
      then Some (entered (k Resume (adapter u)))
      else None
  | Wake, Exiting k =>
      if resolved (exit_future (heap (adapter u)))
      then Some (exited (k Resume (adapter u)))
      else None
  | Interrupt e, Entering k =>
      if interrupting e
      then Some (entered (k (Throw e) (adapter u)))
      else None
  | Interrupt e, Exiting k =>
      if interrupting e
      then Some (exited (k (Throw e) (adapter u)))
      else None
  | DoExit args, Inside _ =>
      Some (exited (__aexit__ args current (adapter u)))
  | _, _ => None
  end.

Fixpoint use_exec (current : task) (trace : list use_event) (u : use)
  : option use :=
  match trace with
  | [] => Some u
  | ev :: trace' =>
      match use_step current ev u with
      | Some u' => use_exec current trace' u'
      | None => None
      end
  end.

Definition enter_calls (l : list manager_call) : nat :=
  List.length (filter (fun c => match c with EnterCall => true
                                        | ExitCall _ => false end) l).

Definition exit_calls (l : list manager_call) : nat :=
  List.length (filter (fun c => match c with EnterCall => false
                                        | ExitCall _ => true end) l).

(** What holds of the thread at each point of [_handler]. *)
Definition thread_ok (a : t) : Prop :=
  match handler_at a with
  | Unspawned => manager_calls a = [] /\ cell (enter_future a) = None
  | WaitStart => manager_calls a = [] /\ cell (enter_future a) = None
  | CallEnter => manager_calls a = [] /\ cell (enter_future a) = None
  | WaitFinish =>
      manager_calls a = [EnterCall]
      /\ exists v, manager_enter = inr v
                   /\ cell (enter_future a) = Some (inr v)
  | CallExit =>
      manager_calls a = [EnterCall]
      /\ finish_evt a = true
      /\ exists v, manager_enter = inr v
                   /\ cell (enter_future a) = Some (inr v)
  | Finished =>
      (manager_calls a = [EnterCall]
       /\ exists e, manager_enter = inl e
                    /\ cell (enter_future a) = Some (inl e))
      \/ (manager_calls a = [EnterCall; ExitCall (finish_args a)]
          /\ finish_evt a = true
          /\ exists v, manager_enter = inr v
                       /\ cell (enter_future a) = Some (inr v))
  end.

(** What holds of the adapter at each point of the [async with]. *)
Definition task_ok (current : task) (u : use) : Prop :=
  let a := heap (adapter u) in
  match task_at u with
  | Before =>
      handler_at a = Unspawned /\ start_evt a = false
      /\ finish_evt a = false
  | Entering k =>
      (exists w0 w1, __aenter__ current w0 = Suspended w1 k)
      /\ handler_at a <> Unspawned /\ start_evt a = true
      /\ finish_evt a = false
  | Inside v =>
      handler_at a <> Unspawned /\ start_evt a = true
      /\ finish_evt a = false /\ manager_enter = inr v
  | EnterRaised e =>
      handler_at a <> Unspawned /\ start_evt a = true
      /\ ((finish_evt a = true /\ finish_args a = [none; none; none])
          \/ (finish_evt a = false /\ exists e', manager_enter = inl e'))
  | Exiting k =>
      (exists args w0 w1, __aexit__ args current w0 = Suspended w1 k)
      /\ handler_at a <> Unspawned /\ start_evt a = true
      /\ finish_evt a = true
  | After _ =>
      handler_at a <> Unspawned /\ start_evt a = true
      /\ finish_evt a = true
  end.

Definition use_ok (current : task) (u : use) : Prop :=
  thread_ok (heap (adapter u)) /\ task_ok current u.

End Adapter.

End _contextadapt.

(** ** abide *)

Section Abide.
Variables (Obj Args Res : Type).
(** [Args] stands for the positional and keyword arguments.
    [inspect.iscoroutinefunction], [hasattr], [callable],
    [type(op).__name__] and [repr] are Python's. *)
Variable iscoroutinefunction : Obj -> bool.
Variable hasattr : Obj -> string -> bool.
Variable callable : Obj -> bool.
Variable type_name : Obj -> string.
Variable repr : string -> string.
(** What calling [op] with the arguments does, inside [abide]: it gives
    the object the call returns (for a coroutine function, the
    coroutine), or the call raises, as on arguments that do not fit the
    signature. *)
Variable invoke : Obj -> Args -> exn + Res.

(** What [abide] returns: what the call of the coroutine function
    returned, the operation itself, [_contextadapt(op)], or
    [workers.run_in_thread] applied to the operation and the
    arguments. *)
Inductive routed : Type :=
| Invoked (returned : Res)
| Unmodified (op : Obj)
| Adapted (manager : Obj)
| InThread (op : Obj) (args : Args).

Definition abide (op : Obj) (args : Args) : exn + routed :=
  if iscoroutinefunction op
  then match invoke op args with
       | inr returned => inr (Invoked returned)
       | inl e => inl e
       end
  else if hasattr op "__aexit__" then inr (Unmodified op)
  else if hasattr op "__exit__" then inr (Adapted op)
  else if negb (callable op)
       then inl (TypeError (repr (type_name op) ++ " object is not callable"))
       else inr (InThread op args).

End Abide.

(** *** Worlds named in the statements *)

(** The world after [current] was appended to the condition's queue. *)
Definition queued_on_condition (current : task) (w : world Condition.t)
  : world Condition.t :=
  {| heap := {| Condition._lock := Condition._lock (heap w);
                Condition._waiting :=
                  Condition._waiting (heap w) ++ [current] |};
     ready := ready w |}.

(** The world after [current] was appended to the queue of the
    condition's lock. *)
Definition queued_on_lock (current : task) (w : world Condition.t)
  : world Condition.t :=
  {| heap := {| Condition._lock :=
                  {| Lock._acquired :=
                       Lock._acquired (Condition._lock (heap w));
                     Lock._waiting :=
                       Lock._waiting (Condition._lock (heap w)) ++ [current] |};
                Condition._waiting := Condition._waiting (heap w) |};
     ready := ready w |}.

(** The world after [self._lock._acquired = True]. *)
Definition with_lock_held (w : world Condition.t) : world Condition.t :=
  {| heap := {| Condition._lock :=
                  {| Lock._acquired := true;
                     Lock._waiting :=
                       Lock._waiting (Condition._lock (heap w)) |};
                Condition._waiting := Condition._waiting (heap w) |};
     ready := ready w |}.

(** *** Uncontended use of a Semaphore *)

(** A sequence of calls by tasks on one semaphore in which no call meets
    contention: an [acquire] that would suspend, or a [release] that finds
    a waiter, ends the run with [None]. *)
Fixpoint run_uncontended (calls : list (task * sem_op))
    (w : world Semaphore.t) : option (world Semaphore.t) :=
  match calls with
  | [] => Some w
  | (t, SemAcquire) :: calls' =>
      match Semaphore.acquire here t w with
      | Returned w' _ => run_uncontended calls' w'
      | _ => None
      end
  | (t, SemRelease) :: calls' =>
      if nonempty (Semaphore._waiting (heap w)) then None
      else match Semaphore.release here t w with
           | Returned w' _ => run_uncontended calls' w'
           | _ => None
           end
  end.

Definition count_op (op : sem_op) (calls : list (task * sem_op)) : Z :=
  Z.of_nat (List.length
    (filter (fun c => match snd c, op with
                      | SemAcquire, SemAcquire => true
                      | SemRelease, SemRelease => true
                      | _, _ => false
                      end) calls)).

(** *** Concrete runs *)

Definition lock_trace : list (event lock_op) :=
  [Call 1 LockAcquire; Call 2 LockAcquire; Call 3 LockAcquire;
   Deliver 2 CancelledError; Call 1 LockRelease; Run 3; Run 2;
   Call 3 LockRelease].

(** Task 1 waits on the condition; task 2 takes the lock and notifies;
    task 1 runs and queues for the lock; its timeout expires; task 2
    releases; task 1 runs with the timeout. *)
Definition timeout_after_notify : list (event cond_op) :=
  [Call 1 CondAcquire; Call 1 CondWait; Call 2 CondAcquire;
   Call 2 (CondNotify 1); Run 1; Deliver 1 TaskTimeout;
   Call 2 CondRelease; Run 1].

(** As [timeout_after_notify], but task 1 runs with the timeout while
    task 2 still holds the lock, and then releases. *)
Definition timeout_while_lock_is_taken : list (event cond_op) :=
  [Call 1 CondAcquire; Call 1 CondWait; Call 2 CondAcquire;
   Call 2 (CondNotify 1); Run 1; Deliver 1 TaskTimeout; Run 1;
   Call 1 CondRelease].

Definition bsem_trace : list (event sem_op) :=
  [Call 1 SemAcquire; Call 2 SemAcquire; Call 3 SemAcquire;
   Call 1 SemRelease; Run 3; Call 2 SemRelease; Call 3 SemRelease].

(** Operations to dispatch: an [async def] function, a curio lock (it
    has the four context-manager methods), a [threading.Lock], the
    integer [3] and a plain function. *)
Inductive sample_op : Type :=
| AsyncFunction
| CurioLock
| ThreadingLock
| Number
| PlainFunction.

Definition sample_iscoroutinefunction (op : sample_op) : bool :=
  match op with AsyncFunction => true | _ => false end.

Definition sample_hasattr (op : sample_op) (name : string) : bool :=
  match op with
  | CurioLock =>
      String.eqb name "__aenter__" || String.eqb name "__aexit__"
      || String.eqb name "__enter__" || String.eqb name "__exit__"
  | ThreadingLock =>
      String.eqb name "__enter__" || String.eqb name "__exit__"
  | _ => false
  end.

Definition sample_callable (op : sample_op) : bool :=
  match op with
  | AsyncFunction | PlainFunction => true
  | _ => false
  end.

Definition sample_type_name (op : sample_op) : string :=
  match op with
  | AsyncFunction | PlainFunction => "function"
  | CurioLock => "Lock"
  | ThreadingLock => "lock"
  | Number => "int"
  end.

(** [repr] of a string of letters. *)
Definition sample_repr (s : string) : string := "'" ++ s ++ "'".

(** Calling the sample [async def] function, which takes one argument:
    the coroutine is named by that argument. *)
Definition sample_invoke (op : sample_op) (args : list nat) : exn + nat :=
  match op, args with
  | AsyncFunction, [n] => inr n
  | AsyncFunction, _ => inl (TypeError "f() takes 1 positional argument")
  | _, _ => inl (TypeError "not called")
  end.

Definition sample_abide
  : sample_op -> list nat -> exn + routed sample_op (list nat) nat :=
  abide sample_iscoroutinefunction sample_hasattr sample_callable
        sample_type_name sample_repr sample_invoke.

(** The task is cancelled while it waits for entry; [__enter__] returns
    afterwards. *)
Definition cancelled_enter : list (_contextadapt.use_event nat) :=
  [_contextadapt.DoEnter nat; _contextadapt.Thread nat;
   _contextadapt.Interrupt nat CancelledError;
   _contextadapt.Thread nat; _contextadapt.Thread nat;
   _contextadapt.Thread nat].

(** [__enter__] raises; the task is resumed and [__aenter__] raises. *)
Definition failed_enter : list (_contextadapt.use_event nat) :=
  [_contextadapt.DoEnter nat; _contextadapt.Thread nat;
   _contextadapt.Thread nat; _contextadapt.Wake nat].

(** ** class _LockBase *)

(** The base class calls [self.acquire()] and [self.release()], which the
    subclasses define: they are the parameters here. *)
Module _LockBase.

Section Methods.
Context {H A : Type}.
Variable acquire : task -> coro H A.
Variable release : task -> coro H unit.

Definition __aenter__ (current : task) : coro H unit :=
  acquire current;; ret tt.

(** [__aexit__(self, exc_type, exc, tb)]: [exc] is the exception that
    left the block, if any.  It returns [None]. *)
Definition __aexit__ (exc : option exn) (current : task) : coro H unit :=
  release current.

Definition __enter__ : coro H unit := raise (RuntimeError "Use async with").

Definition __exit__ (exc : option exn) : coro H unit := ret tt.

End Methods.

End _LockBase.

(** [async with mgr: body], for a manager whose [__aexit__] returns
    [None], as those of [_LockBase] do: the exception of the body, if
    any, goes on after [__aexit__]; an exception of [__aexit__] replaces
    it. *)
Fixpoint leave_block {H A} (o : outcome H A)
    (aexit : option exn -> coro H unit) : outcome H A :=
  match o with
  | Returned w a => bind_outcome (aexit None w) (fun _ => ret a)
  | Raised w e => bind_outcome (aexit (Some e) w) (fun _ => raise e)
  | Suspended w k => Suspended w (fun v w' => leave_block (k v w') aexit)
  end.

Definition async_with {H A} (aenter : coro H unit)
    (aexit : option exn -> coro H unit) (body : coro H A) : coro H A :=
  aenter;; (fun w => leave_block (body w) aexit).

(** [async with lock: body] for a [Lock]. *)
Definition with_lock {H A} (self : ref H Lock.t) (current : task)
    (body : coro H A) : coro H A :=
  async_with (_LockBase.__aenter__ (Lock.acquire self) current)
             (fun exc => _LockBase.__aexit__ (Lock.release self) exc current)
             body.

(** *** Tasks sharing one Semaphore *)

Definition sem_run (op : sem_op) (t : task) : coro Semaphore.t unit :=
  match op with
  | SemAcquire => Semaphore.acquire here t;; ret tt
  | SemRelease => Semaphore.release here t
  end.

Definition sem_cancel (t : task) (s : Semaphore.t) : Semaphore.t :=
  {| Semaphore._value := Semaphore._value s;
     Semaphore._waiting := unqueue t (Semaphore._waiting s) |}.

Definition sem_inv (s : Semaphore.t) : Prop :=
  (0 <= Semaphore._value s)%Z
  /\ ((0 < Semaphore._value s)%Z -> Semaphore._waiting s = []).

(** *** Tasks sharing one Event *)

Inductive event_op : Type := EventWait | EventSet | EventClear.

Definition event_run (op : event_op) (t : task) : coro Event.t unit :=
  match op with
  | EventWait => Event.wait here t
  | EventSet => Event.set here t
  | EventClear => Event.clear here
  end.

Definition event_cancel (t : task) (e : Event.t) : Event.t :=
  {| Event._set := Event._set e;
     Event._waiting := unqueue t (Event._waiting e) |}.

Definition event_inv (e : Event.t) : Prop :=
  Event._set e = true -> Event._waiting e = [].

(** *** Repeated calls *)

(** [n] calls of [release], one after the other, by the same task. *)
Fixpoint releases (n : nat) (current : task) : coro Lock.t unit :=
  match n with
  | O => ret tt
  | S n' => Lock.release here current;; releases n' current
  end.

(** *** What a coroutine can return *)

(** Every value the coroutine returns, however it is resumed, satisfies
    [P]. *)
Fixpoint returns_only {H R : Type} (P : R -> Prop) (o : outcome H R)
  : Prop :=
  match o with
  | Returned _ r => P r
  | Raised _ _ => True
  | Suspended _ k => forall v w', returns_only P (k v w')
  end.

(** The invariant of a lock, for the lock of a condition. *)
Definition cond_lock_inv (c : Condition.t) : Prop :=
  lock_inv (Condition._lock c).

(** *** What crosses the thread boundary *)

Section AdapterResults.
Variable Val : Type.
Variable manager_enter : exn + Val.
Variable manager_exit : list Val -> exn + Val.




End AdapterResults.

(** How a block that does not suspend ends: with a value or with an
    exception, in the world it leaves. *)
Definition ended {H A : Type} (x : exn + A) (w : world H) : outcome H A :=
  match x with
  | inr r => Returned w r
  | inl e => Raised w e
  end.

(** * Properties *)

Unset Implicit Arguments.

Section LockRelease.
Context {H : Type} (self : ref H Lock.t).

(** C1.  [Lock.release] on a lock that is not held fails with the
    assertion error and changes nothing; on a held lock with waiters it
    completes without suspending, moves exactly the first waiter to the
    ready queue and leaves [_acquired] true; on a held lock without
    waiters it clears [_acquired]. *)
Theorem Lock_release_spec (current : task) (w : world H) :
  let lk := load self (heap w) in
  (Lock._acquired lk = false ->
     Lock.release self current w
     = Raised w (AssertionError "Lock not acquired")) /\
  (Lock._acquired lk = true ->
     forall t0 rest, Lock._waiting lk = t0 :: rest ->
     Lock.release self current w
     = Returned
         {| heap := store self {| Lock._acquired := true;
                                  Lock._waiting := rest |} (heap w);
            ready := ready w ++ [(t0, Resume)] |} tt) /\
  (Lock._acquired lk = true ->
     Lock._waiting lk = [] ->
     Lock.release self current w
     = Returned
         {| heap := store self {| Lock._acquired := false;
                                  Lock._waiting := [] |} (heap w);
            ready := ready w |} tt).
Proof.
  intros lk; subst lk.
  unfold Lock.release, bind, read, write, _reschedule_tasks.
  repeat split.
  - intros Hheld; cbn; rewrite Hheld; reflexivity.
  - intros Hheld t0 rest Hq; cbn; rewrite Hheld; cbn.
    rewrite Hq; cbn. rewrite Hheld, Hq; reflexivity.
  - intros Hheld Hq; cbn; rewrite Hheld; cbn.
    rewrite Hq; cbn. rewrite Hq; reflexivity.
Qed.

End LockRelease.

(** ** Invariants of the scheduler *)

Lemma respects_bind {H A B : Type} (I : H -> Prop) (o : outcome H A)
    (f : A -> coro H B) :
  respects I o ->
  (forall a w, I (heap w) -> respects I (f a w)) ->
  respects I (bind_outcome o f).
Proof.
  intros Ho Hf.
  induction o as [w a | w e | w k IH]; simpl in *.
  - apply Hf; exact Ho.
  - exact Ho.
  - destruct Ho as [Hw Hk]. split; [exact Hw |].
    intros v w' Hw'. apply IH. apply Hk; exact Hw'.
Qed.

Section SchedulerFacts.
Variables (H Op : Type).
Variable run_op : Op -> task -> coro H unit.
Variable cancel_wait : task -> H -> H.
Variable I : H -> Prop.
Hypothesis run_ok : forall op t w, I (heap w) -> respects I (run_op op t w).
Hypothesis cancel_ok : forall t h, I h -> I (cancel_wait t h).

Lemma find_parked_In (t : task) l (c : Op * continuation H) :
  find_parked t l = Some c -> In (t, c) l.
Proof.
  induction l as [| [t' c'] l IH]; simpl; [discriminate |].
  destruct (Nat.eqb t t') eqn:E.
  - apply Nat.eqb_eq in E; subst t'. intros [= ->]. now left.
  - intros Hf. right. now apply IH.
Qed.

Lemma drop_parked_In (t : task) (l : list (task * (Op * continuation H))) x :
  In x (drop_parked t l) -> In x l.
Proof.
  induction l as [| [t' c'] l IH]; simpl; [tauto |].
  destruct (Nat.eqb t t'); simpl; intuition.
Qed.

Lemma settle_inv (t : task) (op : Op) (o : outcome H unit) p l :
  respects I o ->
  (forall t' op' k, In (t', (op', k)) p ->
     forall v w, I (heap w) -> respects I (k v w)) ->
  system_inv I (settle t op o p l).
Proof.
  intros Ho Hp. destruct o as [w r | w e | w k]; simpl in *.
  - split; assumption.
  - split; assumption.
  - destruct Ho as [Hw Hk]. split; [exact Hw |].
    simpl. intros t' op' k' [Heq | Hin].
    + injection Heq as _ _ <-. exact Hk.
    + eapply Hp; eassumption.
Qed.

Lemma step_inv (ev : event Op) (s s' : system H Op) :
  system_inv I s ->
  step run_op cancel_wait ev s = Some s' ->
  system_inv I s'.
Proof.
  intros [Hnow Hpark] Hstep.
  destruct ev as [t op | t | t e]; simpl in Hstep.
  - destruct (find_parked t (parked s)); [discriminate |].
    injection Hstep as <-. apply settle_inv; [now apply run_ok | exact Hpark].
  - destruct (take_ready t (ready (now s))) as [[v r'] |]; [| discriminate].
    destruct (find_parked t (parked s)) as [[op k] |] eqn:Hf; [| discriminate].
    injection Hstep as <-. apply settle_inv.
    + apply find_parked_In in Hf. eapply Hpark; [exact Hf | exact Hnow].
    + intros t' op' k' Hin. eapply Hpark. eapply drop_parked_In; exact Hin.
  - destruct (find_parked t (parked s)); [| discriminate].
    destruct (is_ready t (ready (now s))); [discriminate |].
    injection Hstep as <-. split; simpl.
    + now apply cancel_ok.
    + exact Hpark.
Qed.

Lemma exec_inv (trace : list (event Op)) :
  forall s s', system_inv I s ->
  exec run_op cancel_wait trace s = Some s' ->
  system_inv I s'.
Proof.
  induction trace as [| ev trace IH]; simpl; intros s s' Hs Hx.
  - now injection Hx as <-.
  - destruct (step run_op cancel_wait ev s) as [s1 |] eqn:Hstep;
      [| discriminate].
    eapply IH; [| exact Hx]. eapply step_inv; eassumption.
Qed.

Lemma boot_inv (h : H) : I h -> system_inv I (boot Op h).
Proof. intros Hh. split; [exact Hh | intros t op k []]. Qed.

End SchedulerFacts.

(** ** Lock *)

Lemma lock_acquire_respects (t : task) (w : world Lock.t) :
  lock_inv (heap w) -> respects lock_inv (Lock.acquire here t w).
Proof.
  intros Hw. unfold Lock.acquire, bind, read, write; cbn.
  destruct (Lock._acquired (heap w)) eqn:Hheld; cbn.
  - split; [unfold lock_inv; cbn; congruence |].
    intros [| e] w' Hw'; cbn; [| exact Hw'].
    unfold lock_inv; cbn; discriminate.
  - unfold lock_inv; cbn; discriminate.
Qed.

Lemma lock_release_respects (t : task) (w : world Lock.t) :
  lock_inv (heap w) -> respects lock_inv (Lock.release here t w).
Proof.
  intros Hw. unfold Lock.release, bind, read, write, _reschedule_tasks; cbn.
  destruct (Lock._acquired (heap w)) eqn:Hheld; cbn; [| exact Hw].
  destruct (Lock._waiting (heap w)) as [| t0 rest] eqn:Hq; cbn.
  - unfold lock_inv; cbn. now rewrite Hq.
  - unfold lock_inv; cbn. rewrite Hheld; discriminate.
Qed.

Lemma lock_run_respects (op : lock_op) (t : task) (w : world Lock.t) :
  lock_inv (heap w) -> respects lock_inv (lock_run op t w).
Proof.
  intros Hw. destruct op; simpl.
  - apply respects_bind; [now apply lock_acquire_respects |].
    intros _ w' Hw'; exact Hw'.
  - now apply lock_release_respects.
Qed.

Lemma lock_cancel_respects (t : task) (l : Lock.t) :
  lock_inv l -> lock_inv (lock_cancel t l).
Proof.
  unfold lock_inv, lock_cancel; simpl. intros Hl Hheld.
  now rewrite (Hl Hheld).
Qed.

(** C2.  Tasks in any number call [acquire] and [release] on a fresh
    lock, suspended waiters are rescheduled or removed by a cancellation
    or a timeout, in any order the scheduler allows: in every state that
    is reached, a lock that is not held has no waiter. *)
Theorem Lock_unheld_has_no_waiters
    (trace : list (event lock_op)) (s : system Lock.t lock_op) :
  exec lock_run lock_cancel trace (boot lock_op Lock.init) = Some s ->
  Lock._acquired (heap (now s)) = false ->
  Lock._waiting (heap (now s)) = [].
Proof.
  intros Hx.
  assert (Hinv : system_inv lock_inv s).
  { eapply exec_inv; [| | | exact Hx].
    - exact lock_run_respects.
    - exact lock_cancel_respects.
    - apply boot_inv. intros _; reflexivity. }
  exact (proj1 Hinv).
Qed.

(** ** Event *)

(** C6.  [Event.set] completes without suspending, sets the flag, and
    moves to the ready queue exactly the tasks that were queued when it
    was called, all of them, in order; [wait] on a set event returns at
    once without suspending; and neither [wait] nor [set] resets the
    flag, so that holds from a [set] up to the next [clear]. *)
Theorem Event_set_wakes_all (current : task) (w : world Event.t) :
  let woken := map (fun t => (t, Resume)) (Event._waiting (heap w)) in
  Event.set here current w
    = Returned {| heap := {| Event._set := true; Event._waiting := [] |};
                  ready := ready w ++ woken |} tt
  /\ List.length woken = List.length (Event._waiting (heap w))
  /\ forall (t : task) (w' : world Event.t),
       Event.is_set here (heap w') = true ->
       Event.wait here t w' = Returned w' tt
       /\ respects (fun e => Event._set e = true) (Event.set here t w').
Proof.
  intros woken; subst woken. split; [| split].
  - unfold Event.set, bind, read, write, _reschedule_tasks; cbn.
    now rewrite firstn_all, skipn_all.
  - apply length_map.
  - intros t w' Hset. unfold Event.is_set in Hset; cbn in Hset. split.
    + unfold Event.wait, bind, read; cbn. now rewrite Hset.
    + reflexivity.
Qed.

(** ** Semaphore *)

Lemma run_uncontended_value (calls : list (task * sem_op)) :
  forall w w', run_uncontended calls w = Some w' ->
  (Semaphore._value (heap w')
   = Semaphore._value (heap w)
     - count_op SemAcquire calls + count_op SemRelease calls)%Z.
Proof.
  unfold count_op.
  induction calls as [| [t op] calls IH]; simpl; intros w w' Hrun.
  - injection Hrun as <-. lia.
  - destruct op; simpl.
    + unfold Semaphore.acquire, bind, read, write in Hrun; cbn in Hrun.
      destruct (Semaphore._value (heap w) <=? 0)%Z; cbn in Hrun;
        [discriminate |].
      apply IH in Hrun; cbn in Hrun. lia.
    + destruct (nonempty (Semaphore._waiting (heap w))) eqn:Hq;
        [discriminate |].
      unfold Semaphore.release, bind, read, write in Hrun; cbn in Hrun.
      rewrite Hq in Hrun; cbn in Hrun.
      apply IH in Hrun; cbn in Hrun. lia.
Qed.

(** C8.  On a semaphore created with [k] permits, a sequence of [acquire]
    and [release] calls that never meets contention and has as many
    calls of one kind as of the other ends with [k] permits. *)
Theorem Semaphore_balanced_calls_restore_permits
    (k : Z) (calls : list (task * sem_op)) (w' : world Semaphore.t) :
  run_uncontended calls {| heap := Semaphore.init k; ready := [] |} = Some w' ->
  count_op SemAcquire calls = count_op SemRelease calls ->
  Semaphore._value (heap w') = k.
Proof.
  intros Hrun Hcount. apply run_uncontended_value in Hrun.
  cbn in Hrun. lia.
Qed.

Lemma Semaphore_balanced_calls_restore_permits_witness :
  exists w',
    run_uncontended [(1, SemAcquire); (2, SemAcquire); (1, SemRelease);
                     (3, SemAcquire); (3, SemRelease); (2, SemRelease)]
                    {| heap := Semaphore.init 2; ready := [] |} = Some w'
    /\ Semaphore._value (heap w') = 2%Z.
Proof.
  eexists. split; [reflexivity |].
  apply (Semaphore_balanced_calls_restore_permits 2
           [(1, SemAcquire); (2, SemAcquire); (1, SemRelease);
            (3, SemAcquire); (3, SemRelease); (2, SemRelease)]);
    reflexivity.
Defined.

(** ** BoundedSemaphore *)

Lemma bsem_acquire_respects (value : Z) (t : task)
    (w : world BoundedSemaphore.t) :
  bsem_inv value (heap w) ->
  respects (bsem_inv value) (BoundedSemaphore.acquire here t w).
Proof.
  intros (Hb & Hle & Hq). unfold bsem_inv, permits, waiters in *.
  unfold BoundedSemaphore.acquire, Semaphore.acquire, bind, read, write; cbn.
  destruct (Semaphore._value (BoundedSemaphore.super (heap w)) <=? 0)%Z
    eqn:Hv; cbn.
  - apply Z.leb_le in Hv. split.
    + split; [exact Hb | split; [exact Hle | lia]].
    + intros [| e] w' Hw'; cbn; exact Hw'.
  - apply Z.leb_gt in Hv. split; [exact Hb | split; [lia |]].
    intros _. apply Hq; lia.
Qed.

Lemma bsem_release_respects (value : Z) (t : task)
    (w : world BoundedSemaphore.t) :
  bsem_inv value (heap w) ->
  respects (bsem_inv value) (BoundedSemaphore.release here t w).
Proof.
  intros (Hb & Hle & Hq). unfold bsem_inv, permits, waiters in *.
  unfold BoundedSemaphore.release, Semaphore.release, bind, read, write,
    _reschedule_tasks, BoundedSemaphore.bound_value; cbn.
  destruct (Semaphore._value (BoundedSemaphore.super (heap w))
            >=? BoundedSemaphore._bound_value (heap w))%Z eqn:Hv; cbn.
  - split; [exact Hb | split; [exact Hle | exact Hq]].
  - rewrite Z.geb_leb in Hv. apply Z.leb_gt in Hv.
    destruct (Semaphore._waiting (BoundedSemaphore.super (heap w)))
      as [| t0 rest] eqn:Hw; cbn.
    + rewrite ?Hw. split; [exact Hb | split; [lia | reflexivity]].
    + rewrite ?Hw. split; [exact Hb | split; [exact Hle |]].
      intros Hpos. specialize (Hq Hpos). discriminate.
Qed.

Lemma bsem_run_respects (value : Z) (op : sem_op) (t : task)
    (w : world BoundedSemaphore.t) :
  bsem_inv value (heap w) -> respects (bsem_inv value) (bsem_run op t w).
Proof.
  intros Hw. destruct op; simpl.
  - apply respects_bind; [now apply bsem_acquire_respects |].
    intros _ w' Hw'; exact Hw'.
  - now apply bsem_release_respects.
Qed.

Lemma bsem_cancel_respects (value : Z) (t : task) (b : BoundedSemaphore.t) :
  bsem_inv value b -> bsem_inv value (bsem_cancel t b).
Proof.
  unfold bsem_inv, bsem_cancel, permits, waiters; simpl.
  intros (Hb & Hle & Hq). split; [exact Hb | split; [exact Hle |]].
  intros Hpos. now rewrite (Hq Hpos).
Qed.

Lemma bsem_reachable_inv (value : Z) (trace : list (event sem_op))
    (s : system BoundedSemaphore.t sem_op) :
  exec bsem_run bsem_cancel trace (boot sem_op (BoundedSemaphore.init value))
    = Some s ->
  bsem_inv value (heap (now s)).
Proof.
  intros Hx.
  assert (Hinv : system_inv (bsem_inv value) s).
  { eapply exec_inv; [| | | exact Hx].
    - apply bsem_run_respects.
    - apply bsem_cancel_respects.
    - apply boot_inv. unfold bsem_inv, permits, waiters; cbn.
      split; [reflexivity | split; [lia | reflexivity]]. }
  exact (proj1 Hinv).
Qed.

Lemma bsem_release_over (t : task) (w : world BoundedSemaphore.t) :
  (BoundedSemaphore._bound_value (heap w) <= permits (heap w))%Z ->
  BoundedSemaphore.release here t w
  = Raised w (ValueError "BoundedSemaphore released too many times").
Proof.
  intros Hv. unfold permits in Hv.
  unfold BoundedSemaphore.release, bind, read,
    BoundedSemaphore.bound_value; cbn.
  replace (Semaphore._value (BoundedSemaphore.super (heap w))
           >=? BoundedSemaphore._bound_value (heap w))%Z with true.
  - reflexivity.
  - symmetry. rewrite Z.geb_leb. now apply Z.leb_le.
Qed.

Lemma bsem_release_under (t : task) (w : world BoundedSemaphore.t) :
  (permits (heap w) < BoundedSemaphore._bound_value (heap w))%Z ->
  BoundedSemaphore.release here t w
  = Semaphore.release (BoundedSemaphore.super_ref here) t w.
Proof.
  intros Hv. unfold permits in Hv.
  unfold BoundedSemaphore.release, bind, read,
    BoundedSemaphore.bound_value; cbn.
  replace (Semaphore._value (BoundedSemaphore.super (heap w))
           >=? BoundedSemaphore._bound_value (heap w))%Z with false.
  - cbn. destruct (Semaphore.release (BoundedSemaphore.super_ref here) t w);
      reflexivity.
  - symmetry. rewrite Z.geb_leb. now apply Z.leb_gt.
Qed.

(** C4.  [BoundedSemaphore.release] with the permits at the bound raises
    the [ValueError] and leaves the world as it was, whether or not tasks
    are waiting: the test comes before the inherited release, which runs
    only below the bound.  In every state tasks can reach from a new
    bounded semaphore, the permits are at most the bound. *)
Theorem BoundedSemaphore_release_at_bound_raises
    (value : Z) (trace : list (event sem_op))
    (s : system BoundedSemaphore.t sem_op)
    (t : task) (w : world BoundedSemaphore.t) :
  exec bsem_run bsem_cancel trace (boot sem_op (BoundedSemaphore.init value))
    = Some s ->
  (permits (heap w) = BoundedSemaphore._bound_value (heap w) ->
     BoundedSemaphore.release here t w
     = Raised w (ValueError "BoundedSemaphore released too many times"))
  /\ ((permits (heap w) < BoundedSemaphore._bound_value (heap w))%Z ->
        BoundedSemaphore.release here t w
        = Semaphore.release (BoundedSemaphore.super_ref here) t w)
  /\ (permits (heap (now s))
      <= BoundedSemaphore._bound_value (heap (now s)))%Z.
Proof.
  intros Hx. split; [| split].
  - intros Heq. apply bsem_release_over. lia.
  - apply bsem_release_under.
  - destruct (bsem_reachable_inv _ _ _ Hx) as (Hb & Hle & _). lia.
Qed.

(** C5, as the code has it.  On a bounded semaphore whose bound is
    positive, a release that finds waiters and no permit hands the permit
    to the first waiter: it returns, the permits stay at 0 and that
    waiter alone is rescheduled.  In every state tasks can reach from a
    new bounded semaphore with a positive bound, a release that raises
    finds no waiter. *)
Theorem BoundedSemaphore_contended_release_hands_off
    (value : Z) (trace : list (event sem_op))
    (s : system BoundedSemaphore.t sem_op)
    (t : task) (w : world BoundedSemaphore.t) :
  (0 < value)%Z ->
  exec bsem_run bsem_cancel trace (boot sem_op (BoundedSemaphore.init value))
    = Some s ->
  (forall t0 rest,
     BoundedSemaphore._bound_value (heap w) = value ->
     permits (heap w) = 0%Z ->
     waiters (heap w) = t0 :: rest ->
     BoundedSemaphore.release here t w
     = Returned
         {| heap := {| BoundedSemaphore.super :=
                         {| Semaphore._value := 0;
                            Semaphore._waiting := rest |};
                       BoundedSemaphore._bound_value := value |};
            ready := ready w ++ [(t0, Resume)] |} tt)
  /\ (forall w' e,
        BoundedSemaphore.release here t (now s) = Raised w' e ->
        waiters (heap (now s)) = []).
Proof.
  intros Hpos Hx. split.
  - intros t0 rest Hb Hv Hq.
    rewrite bsem_release_under by lia.
    unfold permits, waiters in *.
    unfold Semaphore.release, bind, read, _reschedule_tasks; cbn.
    rewrite Hq; cbn. now rewrite Hv, Hq, Hb.
  - intros w' e Hraise.
    destruct (bsem_reachable_inv _ _ _ Hx) as (Hb & Hle & Hq).
    apply Hq.
    destruct (Z_lt_ge_dec (permits (heap (now s)))
                (BoundedSemaphore._bound_value (heap (now s)))) as [Hlt | Hge];
      [| lia].
    exfalso. rewrite bsem_release_under in Hraise by exact Hlt.
    unfold Semaphore.release, bind, read, write, _reschedule_tasks in Hraise;
      cbn in Hraise.
    destruct (nonempty _) in Hraise; cbn in Hraise; discriminate.
Qed.

(** ** Condition *)

Lemma cond_release_held (current : task) (w : world Condition.t) :
  Condition.locked here (heap w) = true ->
  exists w1, Condition.release here current w = Returned w1 tt.
Proof.
  unfold Condition.locked, Lock.locked; cbn. intros Hheld.
  unfold Condition.release, Lock.release, bind, read, write,
    _reschedule_tasks; cbn.
  rewrite Hheld; cbn.
  destruct (nonempty (Lock._waiting (Condition._lock (heap w))));
    eexists; reflexivity.
Qed.

(** X19.  What [Condition.wait] does, step by step.  It raises the
    [RuntimeError] at the call exactly when the lock is not held.
    Otherwise it releases the lock and suspends on the condition's
    queue; however that suspension ends (resumed by a notify, or a
    cancellation or timeout thrown in) it calls [acquire]: on a free
    lock it takes the lock at once, on a held lock it suspends on the
    lock's queue and takes the lock when it is resumed from there, and
    then returns or lets the pending exception go on, with the lock
    held.  An exception thrown in while it is suspended on the lock's
    queue goes to the caller and the lock is left as it is: the slip
    that C3 records. *)
Theorem Condition_wait_reacquires (current : task) (w : world Condition.t) :
  (Condition.locked here (heap w) = false <->
     exists w0, Condition.wait here current w
                = Raised w0 (RuntimeError "Can't wait on unacquired lock"))
  /\ (Condition.locked here (heap w) = true ->
      exists w1 k,
        Condition.release here current w = Returned w1 tt
        /\ Condition.wait here current w
           = Suspended (queued_on_condition current w1) k
        /\ forall (v : wake) (w' : world Condition.t),
             Condition.locked here (heap (with_lock_held w')) = true
             /\ (Condition.locked here (heap w') = false ->
                   k v w' = resume_with v (with_lock_held w'))
             /\ (Condition.locked here (heap w') = true ->
                   exists k2,
                     k v w' = Suspended (queued_on_lock current w') k2
                     /\ forall w'' : world Condition.t,
                          k2 Resume w'' = resume_with v (with_lock_held w'')
                          /\ forall e, k2 (Throw e) w'' = Raised w'' e)).
Proof.
  assert (Hsusp : Condition.locked here (heap w) = true ->
            exists w1,
              Condition.release here current w = Returned w1 tt
              /\ Condition.wait here current w
                 = Suspended (queued_on_condition current w1)
                     (fun v w' =>
                        finally_outcome (resume_with v w')
                          (Condition.acquire here current))).
  { intros Hheld.
    destruct (cond_release_held current w Hheld) as [w1 Hw1].
    exists w1. split; [exact Hw1 |].
    unfold Condition.wait, bind; cbv beta; cbn [bind_outcome].
    rewrite Hheld. unfold ret at 1; cbn [negb bind_outcome].
    rewrite Hw1; reflexivity. }
  split.
  - destruct (Condition.locked here (heap w)) eqn:Hheld.
    + split; [discriminate |]. intros [w0 Hw0].
      destruct (Hsusp eq_refl) as (w1 & _ & Hw1).
      rewrite Hw1 in Hw0. discriminate.
    + split; [| reflexivity]. intros _. exists w.
      unfold Condition.wait, bind; cbn. now rewrite Hheld.
  - intros Hheld.
    destruct (Hsusp Hheld) as (w1 & Hrel & Hwait).
    exists w1. eexists. split; [exact Hrel |]. split; [exact Hwait |].
    intros v w'. split; [reflexivity |]. split.
    + unfold Condition.locked, Lock.locked; cbn. intros Hfree.
      unfold Condition.acquire, Lock.acquire, bind, read, write.
      destruct v; cbn; rewrite Hfree; reflexivity.
    + unfold Condition.locked, Lock.locked; cbn. intros Hbusy.
      unfold Condition.acquire, Lock.acquire, bind, read, write.
      destruct v; cbn; rewrite Hbusy; cbn.
      * eexists. split; [reflexivity |].
        intros w''. split; [reflexivity | reflexivity].
      * eexists. split; [reflexivity |].
        intros w''. split; [reflexivity | reflexivity].
Qed.

(** C10.  When the first evaluation of the predicate gives a true value,
    [wait_for] returns that value without suspending and without
    raising, whatever the state of the lock: [wait], and its test of the
    lock, are not reached. *)
Theorem Condition_wait_for_true_at_once
    {H V : Type} (self : ref H Condition.t) (truth : V -> bool)
    (fuel : nat) (predicate : function H V) (current : task)
    (w : world H) (h' : H) (v : V) :
  predicate (heap w) = (h', inr v) ->
  truth v = true ->
  Condition.wait_for self truth (S fuel) predicate current w
  = Returned {| heap := h'; ready := ready w |} (Some v).
Proof.
  intros Hp Hv. cbn. unfold bind, call. rewrite Hp; cbn.
  now rewrite Hv.
Qed.

(** ** The adapter *)

Section AdapterFacts.
Variable Val : Type.
Variable none : Val.
Variable manager_enter : exn + Val.
Variable manager_exit : list Val -> exn + Val.

#[local] Abbreviation _handler :=
  (_contextadapt._handler manager_enter manager_exit).
#[local] Abbreviation run_handler :=
  (_contextadapt.run_handler manager_enter manager_exit).
#[local] Abbreviation thread_ok := (_contextadapt.thread_ok manager_enter).
#[local] Abbreviation task_ok := (_contextadapt.task_ok none manager_enter).
#[local] Abbreviation use_ok := (_contextadapt.use_ok none manager_enter).
#[local] Abbreviation use_step :=
  (_contextadapt.use_step none manager_enter manager_exit).
#[local] Abbreviation use_exec :=
  (_contextadapt.use_exec none manager_enter manager_exit).

Lemma handler_step_ok (a a' : _contextadapt.t Val) :
  thread_ok a ->
  _handler a = Some a' ->
  thread_ok a'
  /\ _contextadapt.handler_at a' <> _contextadapt.Unspawned
  /\ _contextadapt.start_evt a' = _contextadapt.start_evt a
  /\ _contextadapt.finish_evt a' = _contextadapt.finish_evt a
  /\ _contextadapt.finish_args a' = _contextadapt.finish_args a.
Proof.
  unfold _contextadapt.thread_ok, _contextadapt._handler.
  destruct a as [se fe fa ef xf pc calls]; cbn.
  destruct pc; cbn; intros Hok Hstep.
  - discriminate.
  - destruct se; [| discriminate]. injection Hstep as <-; cbn.
    repeat split; try discriminate; apply Hok.
  - destruct Hok as [-> Hcell].
    destruct manager_enter as [e | v] eqn:He;
      injection Hstep as <-; cbn; repeat split; try discriminate.
    + left. split; [reflexivity |]. exists e. now split.
    + exists v. now split.
  - destruct fe; [| discriminate]. injection Hstep as <-; cbn.
    repeat split; try discriminate; apply Hok.
  - destruct Hok as (-> & Hfe & v & Hv & Hcell).
    injection Hstep as <-; cbn. repeat split; try discriminate.
    right. split; [reflexivity |]. split; [exact Hfe |].
    exists v. now split.
  - discriminate.
Qed.

(** How [__aenter__] goes on when the task is run again: [given_up] is
    the world after the clauses of [except (CancelledError, TaskTimeout)]. *)
Lemma aenter_resumed (current : task) w0 w1 k :
  _contextadapt.__aenter__ none current w0 = Suspended w1 k ->
  forall (v : wake) (w : world (_contextadapt.t Val)),
  let a := heap w in
  let given_up :=
    {| heap :=
         _contextadapt.Make (_contextadapt.start_evt a) true
           [none; none; none] (_contextadapt.enter_future a)
           {| _contextadapt.cell :=
                _contextadapt.cell (_contextadapt.exit_future a);
              _contextadapt.done_callbacks :=
                S (_contextadapt.done_callbacks
                     (_contextadapt.exit_future a)) |}
           (_contextadapt.handler_at a) (_contextadapt.manager_calls a);
       ready := ready w |} in
  let raised e :=
    if _contextadapt.interrupting e then Raised given_up e else Raised w e in
  k v w =
  match v with
  | Throw e => raised e
  | Resume =>
      match _contextadapt.cell (_contextadapt.enter_future a) with
      | Some (inr x) => Returned w x
      | Some (inl e) => raised e
      | None => raised (OtherError "InvalidStateError")
      end
  end.
Proof.
  unfold _contextadapt.__aenter__, bind, try_except; cbn.
  intros [= _ <-] v w; cbn.
  destruct v as [| e]; cbn.
  - unfold _contextadapt.result, bind, read; cbn.
    destruct (_contextadapt.cell (_contextadapt.enter_future (heap w)))
      as [[e | x] |]; cbn; try reflexivity.
    destruct e; reflexivity.
  - destruct e; reflexivity.
Qed.

Lemma aexit_resumed (args : list Val) (current : task) w0 w1 k :
  _contextadapt.__aexit__ args current w0 = Suspended w1 k ->
  forall (v : wake) (w : world (_contextadapt.t Val)),
  exists r, k v w = match r with
                    | inr x => Returned w x
                    | inl e => Raised w e
                    end.
Proof.
  unfold _contextadapt.__aexit__, bind; cbn.
  intros [= _ <-] v w; cbn.
  destruct v as [| e]; cbn.
  - unfold _contextadapt.result, bind, read; cbn.
    destruct (_contextadapt.cell (_contextadapt.exit_future (heap w)))
      as [[e | x] |]; cbn.
    + now exists (inl e).
    + now exists (inr x).
    + now exists (inl (OtherError "InvalidStateError")).
  - now exists (inl e).
Qed.

Lemma use_step_ok (current : task) (ev : _contextadapt.use_event Val)
    (u u' : _contextadapt.use Val) :
  use_ok current u ->
  use_step current ev u = Some u' ->
  use_ok current u'.
Proof.
  intros [Hth Htask] Hstep.
  destruct u as [[a rdy] pc].
  unfold _contextadapt.task_ok in Htask.
  cbn [_contextadapt.task_at _contextadapt.adapter heap] in Hth, Htask.
  unfold _contextadapt.use_step in Hstep.
  cbn [_contextadapt.task_at _contextadapt.adapter heap ready] in Hstep.
  destruct ev as [| | | e | args].
  - (* the task calls __aenter__ *)
    destruct pc; try discriminate.
    injection Hstep as <-.
    destruct Htask as (Hpc & Hse & Hfe).
    destruct a as [se fe fa ef xf hpc calls]; cbn in *. subst.
    split; [exact Hth |].
    unfold _contextadapt.task_ok; cbn.
    split; [| repeat split; discriminate].
    exists {| heap := _contextadapt.Make false false fa ef xf
                        _contextadapt.Unspawned calls;
              ready := rdy |}.
    eexists. reflexivity.
  - (* the thread advances *)
    destruct (_handler a) as [a' |] eqn:Hh.
    2:{ destruct pc; discriminate. }
    assert (Hu' : u' = {| _contextadapt.adapter :=
                            {| heap := a'; ready := rdy |};
                          _contextadapt.task_at := pc |}).
    { destruct pc; now injection Hstep as <-. }
    subst u'. clear Hstep.
    destruct (handler_step_ok a a' Hth Hh) as (Hth' & Hpc' & Hse & Hfe & Hfa).
    split; [exact Hth' |].
    unfold _contextadapt.task_ok; cbn.
    destruct pc; rewrite ?Hse, ?Hfe, ?Hfa; try tauto.
    destruct Htask as (Hun & _).
    unfold _contextadapt._handler in Hh. rewrite Hun in Hh. discriminate.
  - (* the scheduler resumes the task *)
    destruct pc as [| k | | | k |]; try discriminate.
    + destruct Htask as ((w0 & w1 & Hk) & Hpc & Hse & Hfe).
      destruct (_contextadapt.resolved (_contextadapt.enter_future a)) eqn:Hres;
        [| discriminate].
      injection Hstep as <-.
      rewrite (aenter_resumed current w0 w1 k Hk); cbn.
      unfold _contextadapt.resolved in Hres.
      destruct a as [se fe fa ef xf hpc calls]; cbn in *. subst.
      destruct (_contextadapt.cell ef) as [[e | x] |] eqn:Hcell;
        [| | discriminate].
      * assert (He : exists e', manager_enter = inl e').
        { unfold _contextadapt.thread_ok in Hth; cbn in Hth.
          destruct hpc; try (destruct Hth as [_ Hc]; congruence).
          - destruct Hth as [_ (v & _ & Hc)]; congruence.
          - destruct Hth as (_ & Hc & _); discriminate.
          - destruct Hth as [(_ & e' & He' & _) | (_ & Hc & _)];
              [now exists e' | discriminate]. }
        destruct (_contextadapt.interrupting e); cbn.
        -- split.
           ++ unfold _contextadapt.thread_ok in *; cbn in *.
              destruct hpc; try exact Hth.
              ** destruct Hth as (_ & Hc & _); discriminate.
              ** destruct Hth as [Hth | (_ & Hc & _)];
                   [now left | discriminate].
           ++ unfold _contextadapt.task_ok; cbn.
              repeat split; try assumption. left. now split.
        -- split; [exact Hth |].
           unfold _contextadapt.task_ok; cbn.
           repeat split; try assumption. right. now split.
      * split; [exact Hth |].
        unfold _contextadapt.task_ok; cbn.
        repeat split; try assumption.
        unfold _contextadapt.thread_ok in Hth; cbn in Hth.
        destruct hpc; try (destruct Hth as [_ Hc]; congruence).
        -- destruct Hth as [_ (v & Hv & Hc)]; congruence.
        -- destruct Hth as (_ & Hc & _); discriminate.
        -- destruct Hth as [(_ & e' & _ & Hc) | (_ & Hc & _)];
             [congruence | discriminate].
    + destruct Htask as ((args & w0 & w1 & Hk) & Hpc & Hse & Hfe).
      destruct (_contextadapt.resolved (_contextadapt.exit_future a));
        [| discriminate].
      injection Hstep as <-.
      destruct (aexit_resumed args current w0 w1 k Hk Resume
                  {| heap := a; ready := rdy |})
        as [[e | x] ->]; cbn; (split; [exact Hth |]);
        unfold _contextadapt.task_ok; cbn; tauto.
  - (* the scheduler interrupts the task *)
    destruct pc as [| k | | | k |]; try discriminate.
    + destruct Htask as ((w0 & w1 & Hk) & Hpc & Hse & Hfe).
      destruct (_contextadapt.interrupting e) eqn:Hint; [| discriminate].
      injection Hstep as <-.
      rewrite (aenter_resumed current w0 w1 k Hk); cbn. rewrite Hint; cbn.
      destruct a as [se fe fa ef xf hpc calls]; cbn in *. subst.
      split.
      * unfold _contextadapt.thread_ok in *; cbn in *.
        destruct hpc; try exact Hth.
        -- destruct Hth as (_ & Hc & _); discriminate.
        -- destruct Hth as [Hth | (_ & Hc & _)];
             [now left | discriminate].
      * unfold _contextadapt.task_ok; cbn.
        repeat split; try assumption. left. now split.
    + destruct Htask as ((args & w0 & w1 & Hk) & Hpc & Hse & Hfe).
      destruct (_contextadapt.interrupting e); [| discriminate].
      injection Hstep as <-.
      destruct (aexit_resumed args current w0 w1 k Hk (Throw e)
                  {| heap := a; ready := rdy |})
        as [[e' | x] ->]; cbn; (split; [exact Hth |]);
        unfold _contextadapt.task_ok; cbn; tauto.
  - (* the task calls __aexit__ *)
    destruct pc; try discriminate.
    injection Hstep as <-.
    destruct Htask as (Hpc & Hse & Hfe & Hv).
    destruct a as [se fe fa ef xf hpc calls]; cbn in *. subst.
    split.
    + unfold _contextadapt.thread_ok in *; cbn in *.
      destruct hpc; try exact Hth.
      * destruct Hth as (_ & Hc & _); discriminate.
      * destruct Hth as [Hth | (_ & Hc & _)];
          [now left | discriminate].
    + unfold _contextadapt.task_ok; cbn.
      split; [| repeat split; assumption].
      exists args,
        {| heap := _contextadapt.Make true false fa ef xf hpc calls;
           ready := rdy |}.
      eexists. reflexivity.
Qed.

Lemma use_exec_ok (current : task)
    (trace : list (_contextadapt.use_event Val)) :
  forall u u', use_ok current u ->
  use_exec current trace u = Some u' ->
  use_ok current u'.
Proof.
  induction trace as [| ev trace IH]; simpl; intros u u' Hu Hx.
  - now injection Hx as <-.
  - destruct (use_step current ev u) as [u1 |] eqn:Hstep; [| discriminate].
    eapply IH; [| exact Hx]. eapply use_step_ok; eassumption.
Qed.

Lemma fresh_ok (current : task) : use_ok current (_contextadapt.fresh Val).
Proof.
  split.
  - split; reflexivity.
  - repeat split; reflexivity.
Qed.

Lemma thread_ok_counts (a : _contextadapt.t Val) :
  thread_ok a ->
  _contextadapt.enter_calls (_contextadapt.manager_calls a) <= 1
  /\ _contextadapt.exit_calls (_contextadapt.manager_calls a) <= 1.
Proof.
  unfold _contextadapt.thread_ok.
  destruct (_contextadapt.handler_at a).
  - intros [-> _]; cbn; lia.
  - intros [-> _]; cbn; lia.
  - intros [-> _]; cbn; lia.
  - intros [-> _]; cbn; lia.
  - intros [-> _]; cbn; lia.
  - intros [[-> _] | [-> _]]; cbn; lia.
Qed.

Lemma handler_finishes (a : _contextadapt.t Val) :
  thread_ok a ->
  _contextadapt.handler_at a <> _contextadapt.Unspawned ->
  _contextadapt.start_evt a = true ->
  (_contextadapt.finish_evt a = true \/ exists e, manager_enter = inl e) ->
  _contextadapt.handler_at (run_handler 4 a) = _contextadapt.Finished
  /\ _contextadapt.manager_calls (run_handler 4 a)
     = _contextadapt.EnterCall Val
       :: match manager_enter with
          | inr _ => [_contextadapt.ExitCall (_contextadapt.finish_args a)]
          | inl _ => []
          end.
Proof.
  unfold _contextadapt.thread_ok.
  destruct a as [se fe fa ef xf pc calls]; cbn.
  intros Hth Hpc -> Hfin.
  destruct pc; cbn in *.
  - now elim Hpc.
  - destruct Hth as [-> _].
    destruct manager_enter as [e | v]; cbn; [now split |].
    destruct Hfin as [-> | [e He]]; [cbn; now split | discriminate].
  - destruct Hth as [-> _].
    destruct manager_enter as [e | v]; cbn; [now split |].
    destruct Hfin as [-> | [e He]]; [cbn; now split | discriminate].
  - destruct Hth as (-> & v & -> & _).
    destruct Hfin as [-> | [e He]]; [cbn; now split | discriminate].
  - destruct Hth as (-> & _ & v & -> & _). cbn; now split.
  - destruct Hth as [(-> & e & -> & _) | (-> & _ & v & -> & _)];
      now split.
Qed.

(** C9, as the code has it.  In every state of a use of the adapter,
    whatever the interleaving of the task, the scheduler (resuming the
    task, or interrupting it with a cancellation or a timeout) and the
    worker thread, the thread has called [__enter__] at most once and
    [__exit__] at most once.  Once [__aenter__] has raised, or
    [__aexit__] has been called, nothing blocks the thread: left to run,
    it finishes having called [__enter__] exactly once, followed by
    [__exit__] exactly once, with the arguments recorded in
    [finish_args], when [__enter__] returned, and by nothing when
    [__enter__] raised.  When [__aenter__] raised although [__enter__]
    returns (the task was interrupted while waiting for entry), the
    exit signal is set and [finish_args] is [(None, None, None)]. *)
Theorem adapter_enters_once_and_exits_after_enter
    (current : task) (trace : list (_contextadapt.use_event Val))
    (u : _contextadapt.use Val) :
  use_exec current trace (_contextadapt.fresh Val) = Some u ->
  let a := heap (_contextadapt.adapter u) in
  _contextadapt.enter_calls (_contextadapt.manager_calls a) <= 1
  /\ _contextadapt.exit_calls (_contextadapt.manager_calls a) <= 1
  /\ match _contextadapt.task_at u with
     | _contextadapt.EnterRaised _ _
     | _contextadapt.Exiting _
     | _contextadapt.After _ =>
         _contextadapt.handler_at (run_handler 4 a) = _contextadapt.Finished
         /\ _contextadapt.manager_calls (run_handler 4 a)
            = _contextadapt.EnterCall Val
              :: match manager_enter with
                 | inr _ =>
                     [_contextadapt.ExitCall (_contextadapt.finish_args a)]
                 | inl _ => []
                 end
     | _ => True
     end
  /\ forall e v,
       _contextadapt.task_at u = _contextadapt.EnterRaised Val e ->
       manager_enter = inr v ->
       _contextadapt.finish_evt a = true
       /\ _contextadapt.finish_args a = [none; none; none].
Proof.
  intros Hx a.
  assert (Hu : use_ok current u).
  { eapply use_exec_ok; [apply fresh_ok | exact Hx]. }
  destruct Hu as [Hth Htask]. fold a in Hth.
  unfold _contextadapt.task_ok in Htask. fold a in Htask.
  destruct (thread_ok_counts a Hth) as [Hen Hex].
  split; [exact Hen |]. split; [exact Hex |]. split.
  - destruct (_contextadapt.task_at u); try exact I.
    + destruct Htask as (Hpc & Hse & [[Hfe _] | [_ He]]);
        apply handler_finishes; auto.
    + destruct Htask as (_ & Hpc & Hse & Hfe).
      apply handler_finishes; auto.
    + destruct Htask as (Hpc & Hse & Hfe).
      apply handler_finishes; auto.
  - intros e v Hat Hv. rewrite Hat in Htask.
    destruct Htask as (_ & _ & [Hdone | [_ [e' He']]]);
      [exact Hdone | congruence].
Qed.

End AdapterFacts.

(** ** abide *)

Section AbideFacts.
Variables (Obj Args Res : Type).
Variable iscoroutinefunction : Obj -> bool.
Variable hasattr : Obj -> string -> bool.
Variable callable : Obj -> bool.
Variable type_name : Obj -> string.
Variable repr : string -> string.
Variable invoke : Obj -> Args -> exn + Res.

(** C7.  [abide] tests, in this order: a coroutine function is called
    with the arguments, and [abide] gives what that call gives (what it
    returns, or the exception it raises); else an object with
    [__aexit__] is returned as it is; else an object with [__exit__] is
    wrapped in [_contextadapt]; else an object that is not callable
    makes a [TypeError] whose message names its type; anything else is
    run in a thread with the arguments. *)
Theorem abide_routes_in_order (op : Obj) (args : Args) :
  let result :=
    abide iscoroutinefunction hasattr callable type_name repr invoke
          op args in
  (iscoroutinefunction op = true ->
     result = match invoke op args with
              | inr returned => inr (Invoked Obj Args returned)
              | inl e => inl e
              end)
  /\ (iscoroutinefunction op = false ->
      hasattr op "__aexit__" = true ->
      result = inr (Unmodified Args Res op))
  /\ (iscoroutinefunction op = false ->
      hasattr op "__aexit__" = false ->
      hasattr op "__exit__" = true ->
      result = inr (Adapted Args Res op))
  /\ (iscoroutinefunction op = false ->
      hasattr op "__aexit__" = false ->
      hasattr op "__exit__" = false ->
      callable op = false ->
      result
      = inl (TypeError (repr (type_name op) ++ " object is not callable")))
  /\ (iscoroutinefunction op = false ->
      hasattr op "__aexit__" = false ->
      hasattr op "__exit__" = false ->
      callable op = true ->
      result = inr (InThread Res op args)).
Proof.
  intros result; subst result. unfold abide. repeat split.
  - now intros ->.
  - now intros -> ->.
  - now intros -> -> ->.
  - now intros -> -> -> ->.
  - now intros -> -> -> ->.
Qed.

End AbideFacts.

(** ** The properties on concrete inputs *)

Lemma Lock_release_spec_witness :
  Lock.release here 1 {| heap := Lock.Make false []; ready := [] |}
  = Raised {| heap := Lock.Make false []; ready := [] |}
           (AssertionError "Lock not acquired")
  /\ Lock.release here 1 {| heap := Lock.Make true [2; 3]; ready := [] |}
     = Returned {| heap := Lock.Make true [3]; ready := [(2, Resume)] |} tt
  /\ Lock.release here 1 {| heap := Lock.Make true []; ready := [] |}
     = Returned {| heap := Lock.Make false []; ready := [] |} tt.
Proof.
  split; [| split].
  - apply (proj1 (Lock_release_spec here 1
                    {| heap := Lock.Make false []; ready := [] |})).
    reflexivity.
  - apply (proj1 (proj2 (Lock_release_spec here 1
                    {| heap := Lock.Make true [2; 3]; ready := [] |})));
      reflexivity.
  - apply (proj2 (proj2 (Lock_release_spec here 1
                    {| heap := Lock.Make true []; ready := [] |})));
      reflexivity.
Defined.

Lemma Lock_unheld_has_no_waiters_witness :
  exists s,
    exec lock_run lock_cancel lock_trace (boot lock_op Lock.init) = Some s
    /\ Lock._acquired (heap (now s)) = false
    /\ Lock._waiting (heap (now s)) = [].
Proof.
  eexists. split; [reflexivity |]. split; [reflexivity |].
  apply (Lock_unheld_has_no_waiters lock_trace); reflexivity.
Defined.

(** C3.  The code breaks the claim.  [wait] reacquires the lock in a
    [finally] clause, and that [acquire] can itself be interrupted: a
    task waits on the condition and is notified; while it queues for the
    lock its timeout expires, and the notifier releases the lock before
    the task runs.  [wait] then ends with the timeout and the lock is
    not held. *)
Lemma Condition_wait_timeout_exits_unlocked :
  exists s,
    exec cond_run cond_cancel timeout_after_notify
         (boot cond_op (Condition.init None)) = Some s
    /\ In (Exit 1 CondWait (Some TaskTimeout) (heap (now s))) (log s)
    /\ Condition.locked here (heap (now s)) = false.
Proof.
  eexists. split; [reflexivity |]. split; [| reflexivity].
  cbn. do 4 right. left. reflexivity.
Defined.

Lemma Condition_wait_reacquires_witness :
  exists w1 k,
    Condition.release here 1
      {| heap := Condition.Make (Lock.Make true []) []; ready := [] |}
    = Returned w1 tt
    /\ Condition.wait here 1
         {| heap := Condition.Make (Lock.Make true []) []; ready := [] |}
       = Suspended (queued_on_condition 1 w1) k
    /\ k (Throw CancelledError)
         {| heap := Condition.Make (Lock.Make false []) []; ready := [] |}
       = Raised {| heap := Condition.Make (Lock.Make true []) [];
                   ready := [] |} CancelledError.
Proof.
  destruct (proj2 (Condition_wait_reacquires 1
              {| heap := Condition.Make (Lock.Make true []) [];
                 ready := [] |}) eq_refl)
    as (w1 & k & Hrel & Hwait & Hk).
  exists w1, k. split; [exact Hrel |]. split; [exact Hwait |].
  apply (proj1 (proj2 (Hk (Throw CancelledError)
           {| heap := Condition.Make (Lock.Make false []) [];
              ready := [] |}))).
  reflexivity.
Defined.

(** The same slip with the lock still taken: the task leaves [wait] with
    the timeout while the notifier holds the lock, and the [release] it
    then does, as at the end of [async with cond:], frees the lock of
    the notifier, which has not released it. *)
Lemma Condition_wait_timeout_then_release_frees_others_lock :
  exists s,
    exec cond_run cond_cancel timeout_while_lock_is_taken
         (boot cond_op (Condition.init None)) = Some s
    /\ In (Exit 1 CondWait (Some TaskTimeout)
              (Condition.Make (Lock.Make true []) [])) (log s)
    /\ In (Exit 1 CondRelease None (heap (now s))) (log s)
    /\ Condition.locked here (heap (now s)) = false
    /\ forall x, In x (log s) -> exit_task x = 2 ->
         exit_op x <> CondRelease.
Proof.
  eexists. split; [reflexivity |].
  split; [cbn; do 3 right; left; reflexivity |].
  split; [cbn; do 4 right; left; reflexivity |].
  split; [reflexivity |].
  cbn. intros x [<- | [<- | [<- | [<- | [<- | []]]]]]; cbn;
    discriminate.
Defined.

Lemma BoundedSemaphore_release_at_bound_raises_witness :
  exists s,
    exec bsem_run bsem_cancel bsem_trace
         (boot sem_op (BoundedSemaphore.init 2)) = Some s
    /\ permits (heap (now s)) = 2%Z
    /\ BoundedSemaphore.release here 1 (now s)
       = Raised (now s)
           (ValueError "BoundedSemaphore released too many times")
    /\ (permits (heap (now s))
        <= BoundedSemaphore._bound_value (heap (now s)))%Z.
Proof.
  eexists. split; [reflexivity |]. split; [reflexivity |].
  match goal with
  | |- BoundedSemaphore.release here 1 ?w = _ /\ _ =>
      pose proof (BoundedSemaphore_release_at_bound_raises 2 bsem_trace _ 1
                    w eq_refl) as (Hraise & _ & Hle)
  end.
  split; [apply Hraise; reflexivity | exact Hle].
Defined.

(** C5 fails as stated: on [BoundedSemaphore(0)] a task that acquires
    suspends, so there is a waiter and no permit, and a release raises
    the [ValueError] instead of resuming the waiter. *)
Lemma BoundedSemaphore_zero_bound_release_raises :
  exists w k,
    BoundedSemaphore.acquire here 7
      {| heap := BoundedSemaphore.init 0; ready := [] |} = Suspended w k
    /\ permits (heap w) = 0%Z
    /\ waiters (heap w) = [7]
    /\ BoundedSemaphore.release here 1 w
       = Raised w (ValueError "BoundedSemaphore released too many times").
Proof.
  eexists. eexists. split; [reflexivity |].
  split; [reflexivity |]. split; reflexivity.
Defined.

Lemma BoundedSemaphore_contended_release_hands_off_witness :
  exists s,
    exec bsem_run bsem_cancel
         [Call 1 SemAcquire; Call 2 SemAcquire; Call 3 SemAcquire;
          Call 4 SemAcquire]
         (boot sem_op (BoundedSemaphore.init 2)) = Some s
    /\ BoundedSemaphore.release here 1 (now s)
       = Returned
           {| heap := {| BoundedSemaphore.super :=
                           {| Semaphore._value := 0;
                              Semaphore._waiting := [4] |};
                         BoundedSemaphore._bound_value := 2 |};
              ready := [(3, Resume)] |} tt.
Proof.
  eexists. split; [reflexivity |].
  match goal with
  | |- BoundedSemaphore.release here 1 ?w = _ =>
      apply (proj1 (BoundedSemaphore_contended_release_hands_off 2
                      [Call 1 SemAcquire; Call 2 SemAcquire;
                       Call 3 SemAcquire; Call 4 SemAcquire] _ 1 w
                      eq_refl eq_refl) 3 [4])
  end; reflexivity.
Defined.

Lemma Event_set_wakes_all_witness :
  Event.set here 1 {| heap := Event.Make false [2; 3]; ready := [] |}
  = Returned {| heap := Event.Make true [];
                ready := [(2, Resume); (3, Resume)] |} tt
  /\ Event.wait here 4 {| heap := Event.Make true [];
                          ready := [(2, Resume); (3, Resume)] |}
     = Returned {| heap := Event.Make true [];
                   ready := [(2, Resume); (3, Resume)] |} tt.
Proof.
  pose proof (Event_set_wakes_all 1
                {| heap := Event.Make false [2; 3]; ready := [] |})
    as (Hset & _ & Hwait).
  split; [exact Hset |].
  apply (Hwait 4 {| heap := Event.Make true [];
                    ready := [(2, Resume); (3, Resume)] |}).
  reflexivity.
Defined.

Lemma abide_routes_in_order_witness :
  sample_abide AsyncFunction [1] = inr (Invoked sample_op (list nat) 1)
  /\ sample_abide AsyncFunction []
     = inl (TypeError "f() takes 1 positional argument")
  /\ sample_abide CurioLock [] = inr (Unmodified (list nat) nat CurioLock)
  /\ sample_abide ThreadingLock []
     = inr (Adapted (list nat) nat ThreadingLock)
  /\ sample_abide Number []
     = inl (TypeError "'int' object is not callable")
  /\ sample_abide PlainFunction [1] = inr (InThread nat PlainFunction [1]).
Proof.
  unfold sample_abide.
  split; [| split; [| split; [| split; [| split]]]].
  - apply (proj1 (abide_routes_in_order sample_op (list nat) nat
      sample_iscoroutinefunction sample_hasattr sample_callable
      sample_type_name sample_repr sample_invoke AsyncFunction [1]));
      reflexivity.
  - apply (proj1 (abide_routes_in_order sample_op (list nat) nat
      sample_iscoroutinefunction sample_hasattr sample_callable
      sample_type_name sample_repr sample_invoke AsyncFunction []));
      reflexivity.
  - apply (abide_routes_in_order sample_op (list nat) nat); reflexivity.
  - apply (abide_routes_in_order sample_op (list nat) nat); reflexivity.
  - apply (proj1 (proj2 (proj2 (proj2
      (abide_routes_in_order sample_op (list nat) nat
         sample_iscoroutinefunction sample_hasattr sample_callable
         sample_type_name sample_repr sample_invoke Number [])))));
      reflexivity.
  - apply (abide_routes_in_order sample_op (list nat) nat); reflexivity.
Defined.

(** C9 fails as stated: when [__enter__] raises, the worker thread
    stores the exception and returns; it has called [__enter__] once and
    never calls [__exit__]. *)
Lemma adapter_failed_enter_has_no_exit :
  exists u,
    _contextadapt.use_exec 0 (inl (OtherError "OSError"))
      (fun _ => inr 0) 1 failed_enter (_contextadapt.fresh nat) = Some u
    /\ _contextadapt.task_at u
       = _contextadapt.EnterRaised nat (OtherError "OSError")
    /\ _contextadapt.handler_at (heap (_contextadapt.adapter u))
       = _contextadapt.Finished
    /\ _contextadapt.manager_calls (heap (_contextadapt.adapter u))
       = [_contextadapt.EnterCall nat]
    /\ _contextadapt.exit_calls
         (_contextadapt.manager_calls (heap (_contextadapt.adapter u))) = 0.
Proof.
  eexists. split; [reflexivity |].
  repeat split; reflexivity.
Defined.

Lemma adapter_enters_once_and_exits_after_enter_witness :
  exists u,
    _contextadapt.use_exec 0 (inr 7) (fun _ => inr 0) 1 cancelled_enter
      (_contextadapt.fresh nat) = Some u
    /\ _contextadapt.task_at u = _contextadapt.EnterRaised nat CancelledError
    /\ _contextadapt.manager_calls
         (_contextadapt.run_handler (inr 7) (fun _ => inr 0) 4
            (heap (_contextadapt.adapter u)))
       = [_contextadapt.EnterCall nat; _contextadapt.ExitCall [0; 0; 0]].
Proof.
  eexists. split; [reflexivity |]. split; [reflexivity |].
  pose proof (adapter_enters_once_and_exits_after_enter nat 0 (inr 7)
                (fun _ => inr 0) 1 cancelled_enter _ eq_refl)
    as (_ & _ & Hrun & _).
  exact (proj2 Hrun).
Defined.

Lemma Condition_wait_for_true_at_once_witness :
  Condition.wait_for here (fun n => negb (Nat.eqb n 0)) 1
    (fun h => (h, inr 5)) 1
    {| heap := Condition.Make (Lock.Make false []) []; ready := [] |}
  = Returned {| heap := Condition.Make (Lock.Make false []) [];
                ready := [] |} (Some 5).
Proof.
  apply (Condition_wait_for_true_at_once here (fun n => negb (Nat.eqb n 0)) 0
           (fun h => (h, inr 5)) 1
           {| heap := Condition.Make (Lock.Make false []) []; ready := [] |});
    reflexivity.
Defined.

(** * Further properties *)

(** ** Lock.acquire *)

(** X1.  [Lock.acquire] on a free lock takes it and returns [True]
    without suspending and without touching the queue.  On a held lock
    it suspends with the caller appended at the back of the queue; when
    the caller is resumed it marks the lock held, without testing it
    again, and returns [True]; an exception thrown into the suspended
    caller goes on and the lock is left as it is. *)
Theorem Lock_acquire_spec {H : Type} (self : ref H Lock.t)
    (current : task) (w : world H) :
  let lk := load self (heap w) in
  (Lock._acquired lk = false ->
     Lock.acquire self current w
     = Returned
         {| heap := store self {| Lock._acquired := true;
                                  Lock._waiting := Lock._waiting lk |}
                          (heap w);
            ready := ready w |} true)
  /\ (Lock._acquired lk = true ->
      exists k,
        Lock.acquire self current w
        = Suspended
            {| heap := store self
                         {| Lock._acquired := true;
                            Lock._waiting := Lock._waiting lk ++ [current] |}
                         (heap w);
               ready := ready w |} k
        /\ forall w' : world H,
             k Resume w'
             = Returned
                 {| heap := store self
                              {| Lock._acquired := true;
                                 Lock._waiting :=
                                   Lock._waiting (load self (heap w')) |}
                              (heap w');
                    ready := ready w' |} true
             /\ forall e, k (Throw e) w' = Raised w' e).
Proof.
  intros lk; subst lk.
  unfold Lock.acquire, bind, read, write, _wait_on_queue. split.
  - intros Hfree; cbn. rewrite Hfree; reflexivity.
  - intros Hheld; cbn. rewrite Hheld; cbn. eexists. split.
    + rewrite Hheld; reflexivity.
    + intros w'. split; [reflexivity | intros e; reflexivity].
Qed.

Lemma Lock_acquire_spec_witness :
  Lock.acquire here 1 {| heap := Lock.Make false []; ready := [] |}
  = Returned {| heap := Lock.Make true []; ready := [] |} true
  /\ exists k,
       Lock.acquire here 2 {| heap := Lock.Make true [5]; ready := [] |}
       = Suspended {| heap := Lock.Make true [5; 2]; ready := [] |} k.
Proof.
  split.
  - apply (proj1 (Lock_acquire_spec here 1
                    {| heap := Lock.Make false []; ready := [] |}));
      reflexivity.
  - destruct (proj2 (Lock_acquire_spec here 2
                       {| heap := Lock.Make true [5]; ready := [] |})
                    eq_refl) as (k & Hk & _).
    exists k. exact Hk.
Defined.

(** X2.  Successive releases of a held lock resume the waiters in the
    order in which they queued: [n] releases, with at least [n] tasks
    waiting, put the first [n] waiters on the ready queue, first come
    first, keep the others queued in their order, and leave the lock
    held. *)
Theorem Lock_releases_resume_in_queue_order (n : nat) (current : task) :
  forall w : world Lock.t,
  Lock._acquired (heap w) = true ->
  n <= List.length (Lock._waiting (heap w)) ->
  releases n current w
  = Returned
      {| heap := {| Lock._acquired := true;
                    Lock._waiting := skipn n (Lock._waiting (heap w)) |};
         ready := ready w
                  ++ map (fun t => (t, Resume))
                         (firstn n (Lock._waiting (heap w))) |} tt.
Proof.
  induction n as [| n IH]; intros [[held q] rdy] Hheld Hn; cbn in *.
  - subst held. unfold ret. now rewrite app_nil_r.
  - subst held. destruct q as [| t0 rest]; cbn in Hn; [lia |].
    unfold ret at 1, bind, read, _reschedule_tasks; cbn.
    rewrite IH; cbn; [| reflexivity | lia].
    now rewrite <- app_assoc.
Qed.

Lemma Lock_releases_resume_in_queue_order_witness :
  releases 2 1 {| heap := Lock.Make true [4; 5; 6]; ready := [] |}
  = Returned {| heap := Lock.Make true [6];
                ready := [(4, Resume); (5, Resume)] |} tt.
Proof.
  apply (Lock_releases_resume_in_queue_order 2 1
           {| heap := Lock.Make true [4; 5; 6]; ready := [] |});
    [reflexivity | cbn; lia].
Defined.

(** ** async with *)

(** X3.  [async with lock: body] on a free lock, with a body that does
    not suspend.  The body runs with the lock held.  However the body
    ends, with a value or with an exception, [release] runs once in the
    world the body leaves: when the lock is still held there, the lock
    is freed if nobody waits, or handed to the first waiter, and the
    statement ends as the body did ([__aexit__] returns [None], which
    swallows nothing); when the body has itself released the lock, the
    statement raises the [AssertionError] of [release] instead. *)
Theorem with_lock_releases_on_every_exit {A : Type} (current : task)
    (body : coro Lock.t A) (w w2 : world Lock.t) (x : exn + A) :
  Lock._acquired (heap w) = false ->
  body {| heap := Lock.Make true (Lock._waiting (heap w));
          ready := ready w |} = ended x w2 ->
  (Lock._acquired (heap w2) = false ->
     with_lock here current body w
     = Raised w2 (AssertionError "Lock not acquired"))
  /\ (Lock._acquired (heap w2) = true ->
      Lock._waiting (heap w2) = [] ->
      with_lock here current body w
      = ended x {| heap := Lock.Make false []; ready := ready w2 |})
  /\ (Lock._acquired (heap w2) = true ->
      forall t0 rest, Lock._waiting (heap w2) = t0 :: rest ->
      with_lock here current body w
      = ended x {| heap := Lock.Make true rest;
                   ready := ready w2 ++ [(t0, Resume)] |}).
Proof.
  destruct w as [[held q] rdy].
  cbn [heap ready Lock._acquired Lock._waiting]. intros -> Hbody.
  assert (Hrun : with_lock here current body
                   {| heap := Lock.Make false q; ready := rdy |}
                 = leave_block (ended x w2)
                     (fun exc =>
                        _LockBase.__aexit__ (Lock.release here) exc current)).
  { unfold with_lock, async_with, _LockBase.__aenter__, Lock.acquire, bind,
      read, write; cbn. now rewrite Hbody. }
  rewrite Hrun. clear Hrun Hbody.
  destruct w2 as [[held2 q2] rdy2]; cbn.
  unfold _LockBase.__aexit__, Lock.release, bind, read, write,
    _reschedule_tasks.
  split; [| split].
  - intros ->. destruct x; reflexivity.
  - intros -> ->. destruct x; reflexivity.
  - intros -> t0 rest ->. destruct x; reflexivity.
Qed.

Lemma with_lock_releases_on_every_exit_witness :
  with_lock here 1 (ret 7) {| heap := Lock.init; ready := [] |}
  = Returned {| heap := Lock.init; ready := [] |} 7
  /\ with_lock here 1
       (fun w => Raised {| heap := Lock.Make true [4; 5]; ready := ready w |}
                        (ValueError "boom"))
       {| heap := Lock.init; ready := [] |}
     = Raised (R := nat)
         {| heap := Lock.Make true [5]; ready := [(4, Resume)] |}
         (ValueError "boom")
  /\ with_lock here 1 (Lock.release here 1;; ret 7)
       {| heap := Lock.init; ready := [] |}
     = Raised {| heap := Lock.init; ready := [] |}
              (AssertionError "Lock not acquired").
Proof.
  split; [| split].
  - apply (proj1 (proj2 (with_lock_releases_on_every_exit 1 (ret 7)
             {| heap := Lock.init; ready := [] |}
             {| heap := Lock.Make true []; ready := [] |} (inr 7)
             eq_refl eq_refl))); reflexivity.
  - apply (proj2 (proj2 (with_lock_releases_on_every_exit 1
             (fun w => Raised {| heap := Lock.Make true [4; 5];
                                 ready := ready w |} (ValueError "boom"))
             {| heap := Lock.init; ready := [] |}
             {| heap := Lock.Make true [4; 5]; ready := [] |}
             (inl (ValueError "boom")) eq_refl eq_refl)) eq_refl 4 [5]);
      reflexivity.
  - apply (proj1 (with_lock_releases_on_every_exit 1
             (Lock.release here 1;; ret 7)
             {| heap := Lock.init; ready := [] |}
             {| heap := Lock.init; ready := [] |} (inr 7)
             eq_refl eq_refl)); reflexivity.
Defined.

(** X4.  [async with lock: body] on a held lock suspends in
    [__aenter__], the caller queued behind the other waiters.  When an
    exception is thrown into it there, the statement raises that
    exception and nothing else happens: the body does not run and
    [release] is not called, so the lock stays with its holder. *)
Theorem with_lock_interrupted_does_not_release {A : Type} (current : task)
    (body : coro Lock.t A) (w : world Lock.t) :
  Lock._acquired (heap w) = true ->
  exists k,
    with_lock here current body w
    = Suspended
        {| heap := Lock.Make true (Lock._waiting (heap w) ++ [current]);
           ready := ready w |} k
    /\ forall (e : exn) (w' : world Lock.t), k (Throw e) w' = Raised w' e.
Proof.
  destruct w as [[held q] rdy]; cbn. intros ->.
  unfold with_lock, async_with, _LockBase.__aenter__, Lock.acquire, bind,
    read, write, _wait_on_queue; cbn.
  eexists. split; [reflexivity |]. intros e w'. reflexivity.
Qed.

Lemma with_lock_interrupted_does_not_release_witness :
  exists k,
    with_lock here 2 (ret 7) {| heap := Lock.Make true [5]; ready := [] |}
    = Suspended {| heap := Lock.Make true [5; 2]; ready := [] |} k
    /\ k (Throw CancelledError) {| heap := Lock.Make true [5]; ready := [] |}
       = Raised {| heap := Lock.Make true [5]; ready := [] |} CancelledError.
Proof.
  destruct (with_lock_interrupted_does_not_release 2 (ret 7)
              {| heap := Lock.Make true [5]; ready := [] |} eq_refl)
    as (k & Hk & Hthrow).
  exists k. split; [exact Hk | apply Hthrow].
Defined.

(** ** Semaphore *)

(** X5.  [Semaphore.acquire] with a permit available takes one and
    returns [True] without suspending.  Without a permit (value zero or
    negative) it suspends with the caller at the back of the queue; when
    the caller is resumed it returns [True] and the value is not
    changed (the permit came from the release that resumed it); an
    exception thrown into the suspended caller goes on, the world
    unchanged. *)
Theorem Semaphore_acquire_spec {H : Type} (self : ref H Semaphore.t)
    (current : task) (w : world H) :
  let s := load self (heap w) in
  ((0 < Semaphore._value s)%Z ->
     Semaphore.acquire self current w
     = Returned
         {| heap := store self
                      {| Semaphore._value := Semaphore._value s - 1;
                         Semaphore._waiting := Semaphore._waiting s |}
                      (heap w);
            ready := ready w |} true)
  /\ ((Semaphore._value s <= 0)%Z ->
      exists k,
        Semaphore.acquire self current w
        = Suspended
            {| heap := store self
                         {| Semaphore._value := Semaphore._value s;
                            Semaphore._waiting :=
                              Semaphore._waiting s ++ [current] |}
                         (heap w);
               ready := ready w |} k
        /\ forall w' : world H,
             k Resume w' = Returned w' true
             /\ forall e, k (Throw e) w' = Raised w' e).
Proof.
  intros s; subst s.
  unfold Semaphore.acquire, bind, read, write, _wait_on_queue. split.
  - intros Hpos; cbn.
    replace (Semaphore._value (load self (heap w)) <=? 0)%Z with false
      by (symmetry; apply Z.leb_gt; exact Hpos).
    reflexivity.
  - intros Hno; cbn.
    replace (Semaphore._value (load self (heap w)) <=? 0)%Z with true
      by (symmetry; apply Z.leb_le; exact Hno).
    cbn. eexists. split; [reflexivity |].
    intros w'. split; [reflexivity | intros e; reflexivity].
Qed.

Lemma Semaphore_acquire_spec_witness :
  Semaphore.acquire here 1 {| heap := Semaphore.Make 2 []; ready := [] |}
  = Returned {| heap := Semaphore.Make 1 []; ready := [] |} true
  /\ exists k,
       Semaphore.acquire here 3
         {| heap := Semaphore.Make 0 [2]; ready := [] |}
       = Suspended {| heap := Semaphore.Make 0 [2; 3]; ready := [] |} k.
Proof.
  split.
  - apply (proj1 (Semaphore_acquire_spec here 1
                    {| heap := Semaphore.Make 2 []; ready := [] |}));
      reflexivity.
  - destruct (proj2 (Semaphore_acquire_spec here 3
                       {| heap := Semaphore.Make 0 [2]; ready := [] |}))
      as (k & Hk & _); [cbn; lia |].
    exists k. exact Hk.
Defined.

Lemma sem_run_respects (op : sem_op) (t : task) (w : world Semaphore.t) :
  sem_inv (heap w) -> respects sem_inv (sem_run op t w).
Proof.
  destruct w as [[v q] rdy]. unfold sem_inv; cbn. intros [Hv Hq].
  destruct op; cbn.
  - unfold Semaphore.acquire, bind, read, write; cbn.
    destruct (v <=? 0)%Z eqn:E; cbn.
    + apply Z.leb_le in E. split.
      * split; [exact Hv | lia].
      * intros [| e] w' Hw'; exact Hw'.
    + apply Z.leb_gt in E. split; [lia |].
      intros _. apply Hq. lia.
  - unfold Semaphore.release, bind, read, write, _reschedule_tasks; cbn.
    destruct q as [| t0 rest]; cbn.
    + split; [lia | reflexivity].
    + split; [exact Hv |]. intros Hpos. specialize (Hq Hpos). discriminate.
Qed.

Lemma sem_cancel_respects (t : task) (s : Semaphore.t) :
  sem_inv s -> sem_inv (sem_cancel t s).
Proof.
  unfold sem_inv, sem_cancel; cbn. intros [Hv Hq].
  split; [exact Hv |]. intros Hpos. now rewrite (Hq Hpos).
Qed.

(** X6.  Tasks in any number call [acquire] and [release] on a semaphore
    created with a value that is not negative, waiters are resumed,
    cancelled or timed out: in every state that is reached the value is
    not negative, and while a permit is available nobody waits. *)
Theorem Semaphore_value_never_negative
    (k : Z) (trace : list (event sem_op)) (s : system Semaphore.t sem_op) :
  (0 <= k)%Z ->
  exec sem_run sem_cancel trace (boot sem_op (Semaphore.init k)) = Some s ->
  (0 <= Semaphore._value (heap (now s)))%Z
  /\ ((0 < Semaphore._value (heap (now s)))%Z ->
      Semaphore._waiting (heap (now s)) = []).
Proof.
  intros Hk Hx.
  assert (Hinv : system_inv sem_inv s).
  { eapply exec_inv; [| | | exact Hx].
    - exact sem_run_respects.
    - exact sem_cancel_respects.
    - apply boot_inv. split; [exact Hk | reflexivity]. }
  exact (proj1 Hinv).
Qed.

Lemma Semaphore_value_never_negative_witness :
  exists s,
    exec sem_run sem_cancel
         [Call 1 SemAcquire; Call 2 SemAcquire; Deliver 2 TaskTimeout;
          Call 3 SemAcquire; Call 1 SemRelease; Run 2; Run 3]
         (boot sem_op (Semaphore.init 1)) = Some s
    /\ (0 <= Semaphore._value (heap (now s)))%Z.
Proof.
  eexists. split; [reflexivity |].
  apply (Semaphore_value_never_negative 1
           [Call 1 SemAcquire; Call 2 SemAcquire; Deliver 2 TaskTimeout;
            Call 3 SemAcquire; Call 1 SemRelease; Run 2; Run 3]);
    [lia | reflexivity].
Defined.

(** ** BoundedSemaphore with no permit to give *)

Lemma bsem_stuck_run_respects (value : Z) (op : sem_op) (t : task)
    (w : world BoundedSemaphore.t) :
  (value <= 0)%Z ->
  BoundedSemaphore._bound_value (heap w) = value
  /\ permits (heap w) = value ->
  respects (fun b => BoundedSemaphore._bound_value b = value
                     /\ permits b = value) (bsem_run op t w).
Proof.
  intros Hneg [Hb Hv]. unfold permits in *.
  destruct w as [[[v q] b] rdy]; cbn in *. subst b v.
  destruct op.
  - cbn.
    unfold BoundedSemaphore.acquire, Semaphore.acquire, bind, read, write;
      cbn.
    replace (value <=? 0)%Z with true by (symmetry; now apply Z.leb_le).
    cbn. split; [now split |].
    intros [| e] w' Hw'; exact Hw'.
  - unfold bsem_run.
    rewrite bsem_release_over by (cbn; lia). cbn. now split.
Qed.

(** X7.  A bounded semaphore created with a value that is zero or
    negative never gives a permit: in every state tasks can reach, the
    value is still the initial one, every [acquire] suspends and every
    [release] raises the [ValueError]. *)
Theorem BoundedSemaphore_without_permits_is_stuck
    (value : Z) (trace : list (event sem_op))
    (s : system BoundedSemaphore.t sem_op) (t : task) :
  (value <= 0)%Z ->
  exec bsem_run bsem_cancel trace (boot sem_op (BoundedSemaphore.init value))
    = Some s ->
  permits (heap (now s)) = value
  /\ (exists w k, BoundedSemaphore.acquire here t (now s) = Suspended w k)
  /\ BoundedSemaphore.release here t (now s)
     = Raised (now s) (ValueError "BoundedSemaphore released too many times").
Proof.
  intros Hneg Hx.
  assert (Hinv : system_inv
                   (fun b => BoundedSemaphore._bound_value b = value
                             /\ permits b = value) s).
  { eapply exec_inv; [| | | exact Hx].
    - intros op t' w. now apply bsem_stuck_run_respects.
    - intros t' b [Hb Hv]. split; [exact Hb | exact Hv].
    - apply boot_inv. now split. }
  destruct Hinv as [[Hb Hv] _]. split; [exact Hv |]. split.
  - unfold permits in Hv.
    unfold BoundedSemaphore.acquire, Semaphore.acquire, bind, read, write;
      cbn.
    rewrite Hv.
    replace (value <=? 0)%Z with true by (symmetry; now apply Z.leb_le).
    cbn. eexists. eexists. reflexivity.
  - apply bsem_release_over. lia.
Qed.

Lemma BoundedSemaphore_without_permits_is_stuck_witness :
  exists s,
    exec bsem_run bsem_cancel
         [Call 1 SemAcquire; Call 2 SemRelease; Deliver 1 CancelledError;
          Run 1]
         (boot sem_op (BoundedSemaphore.init 0)) = Some s
    /\ permits (heap (now s)) = 0%Z.
Proof.
  eexists. split; [reflexivity |].
  apply (BoundedSemaphore_without_permits_is_stuck 0
           [Call 1 SemAcquire; Call 2 SemRelease; Deliver 1 CancelledError;
            Run 1] _ 1); [lia | reflexivity].
Defined.

(** ** Event *)

Lemma event_run_respects (op : event_op) (t : task) (w : world Event.t) :
  event_inv (heap w) -> respects event_inv (event_run op t w).
Proof.
  destruct w as [[flag q] rdy]. unfold event_inv; cbn. intros Hq.
  destruct op; cbn.
  - unfold Event.wait, bind, read; cbn.
    destruct flag; cbn; [exact Hq |].
    split; [discriminate |].
    intros [| e] w' Hw'; exact Hw'.
  - unfold Event.set, bind, read, write, _reschedule_tasks; cbn.
    intros _. apply skipn_all.
  - unfold Event.clear, write; cbn. discriminate.
Qed.

Lemma event_cancel_respects (t : task) (e : Event.t) :
  event_inv e -> event_inv (event_cancel t e).
Proof.
  unfold event_inv, event_cancel; cbn. intros He Hset.
  now rewrite (He Hset).
Qed.

(** X8.  Tasks in any number call [wait], [set] and [clear] on a new
    event, waiters are resumed, cancelled or timed out: in every state
    that is reached, no task is queued on an event that is set. *)
Theorem Event_set_has_no_waiters
    (trace : list (event event_op)) (s : system Event.t event_op) :
  exec event_run event_cancel trace (boot event_op Event.init) = Some s ->
  Event.is_set here (heap (now s)) = true ->
  Event._waiting (heap (now s)) = [].
Proof.
  intros Hx.
  assert (Hinv : system_inv event_inv s).
  { eapply exec_inv; [| | | exact Hx].
    - exact event_run_respects.
    - exact event_cancel_respects.
    - apply boot_inv. intros _; reflexivity. }
  exact (proj1 Hinv).
Qed.

Lemma Event_set_has_no_waiters_witness :
  exists s,
    exec event_run event_cancel
         [Call 1 EventWait; Call 2 EventWait; Deliver 2 CancelledError;
          Call 3 EventSet; Run 1; Call 4 EventWait]
         (boot event_op Event.init) = Some s
    /\ Event.is_set here (heap (now s)) = true
    /\ Event._waiting (heap (now s)) = [].
Proof.
  eexists. split; [reflexivity |]. split; [reflexivity |].
  apply (Event_set_has_no_waiters
           [Call 1 EventWait; Call 2 EventWait; Deliver 2 CancelledError;
            Call 3 EventSet; Run 1; Call 4 EventWait]); reflexivity.
Defined.

(** X9.  [Event.wait] on an event that is not set suspends with the
    caller at the back of the queue.  When the caller is resumed, [wait]
    returns without looking at the flag again: a waiter woken by [set]
    returns even when [clear] has run in between, and leaves the world
    as it finds it.  An exception thrown into the suspended caller goes
    on. *)
Theorem Event_wait_unset_suspends {H : Type} (self : ref H Event.t)
    (current : task) (w : world H) :
  Event.is_set self (heap w) = false ->
  exists k,
    Event.wait self current w
    = Suspended
        {| heap := store self
                     {| Event._set := false;
                        Event._waiting :=
                          Event._waiting (load self (heap w)) ++ [current] |}
                     (heap w);
           ready := ready w |} k
    /\ forall w' : world H,
         k Resume w' = Returned w' tt
         /\ forall e, k (Throw e) w' = Raised w' e.
Proof.
  unfold Event.is_set. intros Hunset.
  unfold Event.wait, bind, read, _wait_on_queue; cbn.
  rewrite Hunset; cbn. eexists. split.
  - rewrite Hunset; reflexivity.
  - intros w'. split; [reflexivity | intros e; reflexivity].
Qed.

Lemma Event_wait_unset_suspends_witness :
  exists k,
    Event.wait here 3 {| heap := Event.Make false [2]; ready := [] |}
    = Suspended {| heap := Event.Make false [2; 3]; ready := [] |} k
    /\ k Resume {| heap := Event.Make false []; ready := [] |}
       = Returned {| heap := Event.Make false []; ready := [] |} tt.
Proof.
  destruct (Event_wait_unset_suspends here 3
              {| heap := Event.Make false [2]; ready := [] |} eq_refl)
    as (k & Hk & Hres).
  exists k. split; [exact Hk | apply Hres].
Defined.

(** ** Condition.notify *)

(** X10.  [Condition.notify(n)] raises the [RuntimeError] and changes
    nothing when the lock is not held.  With the lock held it returns
    without suspending, moves the first [n] waiters of the condition, or
    all of them when fewer wait, to the ready queue in their order, and
    does not touch the lock: the woken tasks still have to take it. *)
Theorem Condition_notify_spec (n : nat) (current : task)
    (w : world Condition.t) :
  let q := Condition._waiting (heap w) in
  (Condition.locked here (heap w) = false ->
     Condition.notify here n current w
     = Raised w (RuntimeError "Can't notify on unacquired lock"))
  /\ (Condition.locked here (heap w) = true ->
      Condition.notify here n current w
      = Returned
          {| heap := {| Condition._lock := Condition._lock (heap w);
                        Condition._waiting := skipn n q |};
             ready := ready w ++ map (fun t => (t, Resume)) (firstn n q) |}
          tt)
  /\ List.length (firstn n q) = Nat.min n (List.length q).
Proof.
  intros q; subst q.
  unfold Condition.notify, Condition.locked, Lock.locked, bind,
    _reschedule_tasks; cbn.
  split; [| split].
  - intros ->; reflexivity.
  - intros ->; reflexivity.
  - apply length_firstn.
Qed.

Lemma Condition_notify_spec_witness :
  Condition.notify here 2 1
    {| heap := Condition.Make (Lock.Make true [9]) [4; 5; 6]; ready := [] |}
  = Returned
      {| heap := Condition.Make (Lock.Make true [9]) [6];
         ready := [(4, Resume); (5, Resume)] |} tt
  /\ Condition.notify here 2 1
       {| heap := Condition.Make (Lock.Make false []) [4]; ready := [] |}
     = Raised
         {| heap := Condition.Make (Lock.Make false []) [4]; ready := [] |}
         (RuntimeError "Can't notify on unacquired lock").
Proof.
  split.
  - apply (proj1 (proj2 (Condition_notify_spec 2 1
             {| heap := Condition.Make (Lock.Make true [9]) [4; 5; 6];
                ready := [] |}))); reflexivity.
  - apply (proj1 (Condition_notify_spec 2 1
             {| heap := Condition.Make (Lock.Make false []) [4];
                ready := [] |})); reflexivity.
Defined.

(** X11.  [Condition.notify_all] with the lock held empties the
    condition's queue and puts every waiter on the ready queue, in
    order; with the lock not held it raises the [RuntimeError] of
    [notify], also when nobody waits. *)
Theorem Condition_notify_all_spec (current : task) (w : world Condition.t) :
  (Condition.locked here (heap w) = false ->
     Condition.notify_all here current w
     = Raised w (RuntimeError "Can't notify on unacquired lock"))
  /\ (Condition.locked here (heap w) = true ->
      Condition.notify_all here current w
      = Returned
          {| heap := {| Condition._lock := Condition._lock (heap w);
                        Condition._waiting := [] |};
             ready := ready w
                      ++ map (fun t => (t, Resume))
                             (Condition._waiting (heap w)) |} tt).
Proof.
  unfold Condition.notify_all, Condition.notify, Condition.locked,
    Lock.locked, bind, read, _reschedule_tasks; cbn.
  split.
  - intros ->; reflexivity.
  - intros ->; cbn. now rewrite firstn_all, skipn_all.
Qed.

Lemma Condition_notify_all_spec_witness :
  Condition.notify_all here 1
    {| heap := Condition.Make (Lock.Make true []) [4; 5]; ready := [] |}
  = Returned
      {| heap := Condition.Make (Lock.Make true []) [];
         ready := [(4, Resume); (5, Resume)] |} tt
  /\ Condition.notify_all here 1
       {| heap := Condition.Make (Lock.Make false []) []; ready := [] |}
     = Raised
         {| heap := Condition.Make (Lock.Make false []) []; ready := [] |}
         (RuntimeError "Can't notify on unacquired lock").
Proof.
  split.
  - apply (proj2 (Condition_notify_all_spec 1
             {| heap := Condition.Make (Lock.Make true []) [4; 5];
                ready := [] |})); reflexivity.
  - apply (proj1 (Condition_notify_all_spec 1
             {| heap := Condition.Make (Lock.Make false []) [];
                ready := [] |})); reflexivity.
Defined.

(** ** The lock of a Condition *)

Lemma respects_finally {H A : Type} (I : H -> Prop) (o : outcome H A)
    (fin : coro H unit) :
  respects I o ->
  (forall w, I (heap w) -> respects I (fin w)) ->
  respects I (finally_outcome o fin).
Proof.
  intros Ho Hfin.
  induction o as [w a | w e | w k IH]; simpl in *.
  - apply respects_bind; [now apply Hfin | intros _ w' Hw'; exact Hw'].
  - apply respects_bind; [now apply Hfin | intros _ w' Hw'; exact Hw'].
  - destruct Ho as [Hw Hk]. split; [exact Hw |].
    intros v w' Hw'. apply IH. now apply Hk.
Qed.

Lemma cond_acquire_respects (t : task) (w : world Condition.t) :
  cond_lock_inv (heap w) ->
  respects cond_lock_inv (Condition.acquire here t w).
Proof.
  destruct w as [[[held lq] cq] rdy]. unfold cond_lock_inv, lock_inv; cbn.
  intros Hw.
  unfold Condition.acquire, Lock.acquire, bind, read, write; cbn.
  destruct held; cbn.
  - split; [discriminate |].
    intros [| e] w' Hw'; cbn; [discriminate | exact Hw'].
  - discriminate.
Qed.

Lemma cond_release_respects (t : task) (w : world Condition.t) :
  cond_lock_inv (heap w) ->
  respects cond_lock_inv (Condition.release here t w).
Proof.
  destruct w as [[[held lq] cq] rdy]. unfold cond_lock_inv, lock_inv; cbn.
  intros Hw.
  unfold Condition.release, Lock.release, bind, read, write,
    _reschedule_tasks; cbn.
  destruct held; cbn; [| exact Hw].
  destruct lq as [| t0 rest]; cbn; [reflexivity | discriminate].
Qed.

Lemma cond_run_respects (op : cond_op) (t : task) (w : world Condition.t) :
  cond_lock_inv (heap w) -> respects cond_lock_inv (cond_run op t w).
Proof.
  intros Hw. destruct op as [| | | n |]; simpl.
  - now apply cond_acquire_respects.
  - now apply cond_release_respects.
  - unfold Condition.wait. unfold bind at 1. cbn [bind_outcome].
    destruct (Condition.locked here (heap w)); cbn [negb].
    + unfold bind at 1; cbn [bind_outcome ret].
      unfold bind. apply respects_bind.
      * now apply cond_release_respects.
      * intros _ w1 Hw1. unfold try_finally.
        apply respects_finally.
        -- cbn. split; [exact Hw1 |].
           intros [| e] w' Hw'; exact Hw'.
        -- intros w2 Hw2. now apply cond_acquire_respects.
    + cbn. exact Hw.
  - unfold Condition.notify, bind, _reschedule_tasks; cbn.
    destruct (Condition.locked here (heap w)); cbn; exact Hw.
  - unfold Condition.notify_all, Condition.notify, bind, read,
      _reschedule_tasks; cbn.
    destruct (Condition.locked here (heap w)); cbn; exact Hw.
Qed.

Lemma cond_cancel_respects (t : task) (c : Condition.t) :
  cond_lock_inv c -> cond_lock_inv (cond_cancel t c).
Proof.
  unfold cond_lock_inv, cond_cancel; cbn. apply lock_cancel_respects.
Qed.

(** X12.  Tasks in any number call [acquire], [release], [wait],
    [notify] and [notify_all] on a new condition, and are resumed,
    cancelled or timed out anywhere, also inside the release and
    reacquire of [wait]: in every state that is reached, the lock of the
    condition has no waiter when it is not held. *)
Theorem Condition_lock_unheld_has_no_waiters
    (trace : list (event cond_op)) (s : system Condition.t cond_op) :
  exec cond_run cond_cancel trace (boot cond_op (Condition.init None))
    = Some s ->
  Condition.locked here (heap (now s)) = false ->
  Lock._waiting (Condition._lock (heap (now s))) = [].
Proof.
  intros Hx.
  assert (Hinv : system_inv cond_lock_inv s).
  { eapply exec_inv; [| | | exact Hx].
    - exact cond_run_respects.
    - exact cond_cancel_respects.
    - apply boot_inv. intros _; reflexivity. }
  exact (proj1 Hinv).
Qed.

Lemma Condition_lock_unheld_has_no_waiters_witness :
  exists s,
    exec cond_run cond_cancel timeout_after_notify
         (boot cond_op (Condition.init None)) = Some s
    /\ Condition.locked here (heap (now s)) = false
    /\ Lock._waiting (Condition._lock (heap (now s))) = [].
Proof.
  eexists. split; [reflexivity |]. split; [reflexivity |].
  apply (Condition_lock_unheld_has_no_waiters timeout_after_notify);
    reflexivity.
Defined.

(** ** Condition.wait_for *)

Lemma returns_only_bind {H A B : Type} (P : B -> Prop) (o : outcome H A)
    (f : A -> coro H B) :
  (forall a w, returns_only P (f a w)) ->
  returns_only P (bind_outcome o f).
Proof.
  intros Hf.
  induction o as [w a | w e | w k IH]; simpl.
  - apply Hf.
  - exact I.
  - intros v w'. apply IH.
Qed.

(** X13.  Whatever the predicate does and however the task is resumed,
    cancelled or timed out while it waits, a value that [wait_for]
    returns is a result of the predicate that is true: it never returns
    a false result ([None] is the loop cut by the fuel). *)
Theorem Condition_wait_for_returns_only_true
    {H V : Type} (self : ref H Condition.t) (truth : V -> bool)
    (predicate : function H V) (current : task) (fuel : nat) :
  forall w : world H,
  returns_only (fun r => match r with
                         | Some v => truth v = true
                         | None => True
                         end)
               (Condition.wait_for self truth fuel predicate current w).
Proof.
  induction fuel as [| fuel IH]; intros w; simpl.
  - exact I.
  - unfold bind at 1. apply returns_only_bind.
    intros v w1. destruct (truth v) eqn:Hv; simpl.
    + exact Hv.
    + unfold bind. apply returns_only_bind. intros _ w2. apply IH.
Qed.

(** X14.  When the first evaluation of the predicate gives a false value
    and the lock is not held, [wait_for] raises the [RuntimeError] of
    [wait], after that one evaluation and without suspending. *)
Theorem Condition_wait_for_false_unlocked_raises
    {H V : Type} (self : ref H Condition.t) (truth : V -> bool)
    (fuel : nat) (predicate : function H V) (current : task)
    (w : world H) (h' : H) (v : V) :
  predicate (heap w) = (h', inr v) ->
  truth v = false ->
  Condition.locked self h' = false ->
  Condition.wait_for self truth (S fuel) predicate current w
  = Raised {| heap := h'; ready := ready w |}
           (RuntimeError "Can't wait on unacquired lock").
Proof.
  intros Hp Hv Hfree. cbn. unfold bind at 1, call. rewrite Hp; cbn.
  rewrite Hv. unfold bind at 1, Condition.wait. unfold bind at 1; cbn.
  now rewrite Hfree.
Qed.

Lemma Condition_wait_for_false_unlocked_raises_witness :
  Condition.wait_for here (fun n => negb (Nat.eqb n 0)) 3
    (fun h => (h, inr 0)) 1
    {| heap := Condition.Make (Lock.Make false []) []; ready := [] |}
  = Raised {| heap := Condition.Make (Lock.Make false []) []; ready := [] |}
           (RuntimeError "Can't wait on unacquired lock").
Proof.
  apply (Condition_wait_for_false_unlocked_raises here
           (fun n => negb (Nat.eqb n 0)) 2 (fun h => (h, inr 0)) 1
           {| heap := Condition.Make (Lock.Make false []) []; ready := [] |}
           (Condition.Make (Lock.Make false []) []) 0);
    reflexivity.
Defined.

(** X15.  When a predicate's exception ends the first evaluation,
    [wait_for] lets it go on, without suspending and without touching
    the lock. *)
Theorem Condition_wait_for_predicate_raises
    {H V : Type} (self : ref H Condition.t) (truth : V -> bool)
    (fuel : nat) (predicate : function H V) (current : task)
    (w : world H) (h' : H) (e : exn) :
  predicate (heap w) = (h', inl e) ->
  Condition.wait_for self truth (S fuel) predicate current w
  = Raised {| heap := h'; ready := ready w |} e.
Proof.
  intros Hp. cbn. unfold bind, call. now rewrite Hp.
Qed.

Lemma Condition_wait_for_predicate_raises_witness :
  Condition.wait_for here (fun n => negb (Nat.eqb n 0)) 3
    (fun h => (h, inl (ValueError "bad"))) 1
    {| heap := Condition.Make (Lock.Make true []) []; ready := [] |}
  = Raised {| heap := Condition.Make (Lock.Make true []) []; ready := [] |}
           (ValueError "bad").
Proof.
  apply (Condition_wait_for_predicate_raises here
           (fun n => negb (Nat.eqb n 0)) 2
           (fun h => (h, inl (ValueError "bad"))) 1
           {| heap := Condition.Make (Lock.Make true []) []; ready := [] |}
           (Condition.Make (Lock.Make true []) []) (ValueError "bad"));
    reflexivity.
Defined.

(** ** abide *)



(** ** What the adapter hands back *)

Section AdapterResultFacts.
Variable Val : Type.
Variable none : Val.
Variable manager_enter : exn + Val.
Variable manager_exit : list Val -> exn + Val.












End AdapterResultFacts.


